(** * Lane packing and re-plan coordination of the week calendar

    A shallow embedding of [CalendarApp._compute_lanes],
    [CalendarApp.refresh_events] and [CalendarApp._check_and_replan]
    (src/calander.py), with the properties the specification states about
    them. *)

From Stdlib Require QArith.
From stdpp Require Import base numbers list strings sorting relations.

Local Open Scope Z_scope.

(** ** Events as delivered by the calendar provider

    An event is a JSON object; only the keys the modelled code reads are
    kept.  [start] and [end] are objects with an optional ["dateTime"]
    (timed events) or ["date"] (all-day events). *)

Record time_field := TimeField {
  dateTime : option string;
  date : option string
}.

Record event := Event {
  ev_id : string;
  summary : option string;
  start : option time_field;
  end_ : option time_field
}.

(** [ev.get(key, {}).get("dateTime")] *)
Definition get_dateTime (f : option time_field) : option string :=
  match f with
  | Some tf => dateTime tf
  | None => None
  end.

(** Python truthiness of an optional string: [None] and [""] are false. *)
Definition truthy (o : option string) : bool :=
  match o with
  | Some EmptyString => false
  | Some _ => true
  | None => false
  end.

(** An instant: an aware [datetime], as microseconds on the absolute time
    line.  Comparison of aware datetimes is comparison of instants. *)
Definition instant : Type := Z.

(** The tuples [(ev, parse(s), parse(e))] collected by [_compute_lanes]. *)
Definition item : Type := event * instant * instant.

Definition item_event (it : item) : event := it.1.1.
Definition item_start (it : item) : instant := it.1.2.
Definition item_end (it : item) : instant := it.2.

Section LanePacker.

(** [parse iso = datetime.fromisoformat(iso.replace("Z", "+00:00")).astimezone()];
    [None] when the library call raises. *)
Variable parse : string -> option instant.

(** One round of the first loop of [_compute_lanes]: [None] is [continue]. *)
Definition parse_item (ev : event) : option item :=
  let s := get_dateTime (start ev) in
  let e := get_dateTime (end_ ev) in
  if negb (truthy s) || negb (truthy e) then None
  else
    match s, e with
    | Some s', Some e' =>
        match parse s', parse e' with
        | Some ps, Some pe => Some (ev, ps, pe)
        | _, _ => None
        end
    | _, _ => None
    end.

Definition collect (events : list event) : list item := omap parse_item events.

(** [items.sort(key=lambda x: x[1])]: Python's sort is stable, so the
    result is the one insertion sort gives when an element is put before
    the first element with a key that is not smaller. *)
Fixpoint insert_by_start (x : item) (l : list item) : list item :=
  match l with
  | [] => [x]
  | y :: l' =>
      if bool_decide (item_start x <= item_start y) then x :: y :: l'
      else y :: insert_by_start x l'
  end.

Fixpoint sort_by_start (l : list item) : list item :=
  match l with
  | [] => []
  | x :: l' => insert_by_start x (sort_by_start l')
  end.

(** The state of the second loop: [lanes] (the end instant of every open
    lane) and [layout] (the tuples [(ev, lane, None)], without the
    placeholder). *)
Definition pack_state : Type := list instant * list (event * nat).

(** One round of the second loop.  The inner [for i in range(len(lanes))]
    stops at the first [i] with [s >= lanes[i]]. *)
Definition place (st : pack_state) (it : item) : pack_state :=
  let '(lanes, layout) := st in
  let '(ev, s, e) := it in
  match list_find (fun l => l <= s) lanes with
  | Some (i, _) => (<[i := e]> lanes, layout ++ [(ev, i)])
  | None => (lanes ++ [e], layout ++ [(ev, length lanes)])
  end.

Definition pack (items : list item) : pack_state := foldl place ([], []) items.

Definition _compute_lanes (events : list event) : list (event * nat * nat) :=
  let '(lanes, layout) := pack (sort_by_start (collect events)) in
  let lane_count := length lanes in
  (fun '(ev, lane) => (ev, lane, lane_count)) <$> layout.

End LanePacker.

(** ** The overlap depth of a day, as a reference for the packer *)

(** An event is active at [t] when [start <= t < end]. *)
Definition active (t : instant) (it : item) : Prop :=
  item_start it <= t /\ t < item_end it.

#[global] Instance active_dec t it : Decision (active t it).
Proof. unfold active. apply _. Defined.

(** Number of events active at the instant [t]. *)
Definition depth_at (t : instant) (items : list item) : nat :=
  length (filter (active t) items).

(** Sweep over the instants at which an event starts: the depth can only
    grow there, so the largest depth met is the overlap depth. *)
Definition overlap_depth (items : list item) : nat :=
  max_list ((fun it => depth_at (item_start it) items) <$> items).

(** The sweep-line computation of the same depth: the endpoints of the
    intervals in the order of time, an end before a start at the same
    instant; a counter goes up at a start and down at an end, and the
    largest value it takes is kept. *)
Definition endpoint : Type := instant * bool.

Definition endpoints (items : list item) : list endpoint :=
  items ≫= fun it => [(item_start it, true); (item_end it, false)].

Definition endpoint_le (p q : endpoint) : Prop :=
  p.1 < q.1 \/ (p.1 = q.1 /\ (p.2 = false \/ q.2 = true)).

#[global] Instance endpoint_le_dec p q : Decision (endpoint_le p q).
Proof. unfold endpoint_le. apply _. Defined.

Definition sweep_step (st : Z * Z) (p : endpoint) : Z * Z :=
  if p.2 then (st.1 + 1, Z.max st.2 (st.1 + 1)) else (st.1 - 1, st.2).

Definition sweep_depth (items : list item) : nat :=
  Z.to_nat (foldl sweep_step (0, 0) (merge_sort endpoint_le (endpoints items))).2.

(** The counter after a run of endpoints. *)
Definition net (l : list endpoint) : Z :=
  Z.of_nat (length (filter (fun q : endpoint => q.2 = true) l))
  - Z.of_nat (length (filter (fun q : endpoint => q.2 = false) l)).

(** Events started, and events ended, by the instant [t]. *)
Definition started (t : instant) (items : list item) : nat :=
  length (filter (fun it => item_start it <= t) items).

Definition ended (t : instant) (items : list item) : nat :=
  length (filter (fun it => item_end it <= t) items).

(** Two intervals overlap unless one ends before the other starts. *)
Definition disjoint (a b : item) : Prop :=
  item_end a <= item_start b \/ item_end b <= item_start a.

(** A lane assignment [lane_of] (one lane per position of [items]) is
    valid for [k] lanes when it uses lanes below [k] only and never puts
    two overlapping events in one lane. *)
Definition valid_assignment (items : list item) (lane_of : list nat) (k : nat) : Prop :=
  length lane_of = length items /\
  Forall (fun l => (l < k)%nat) lane_of /\
  forall i j a b l,
    i <> j ->
    items !! i = Some a -> items !! j = Some b ->
    lane_of !! i = Some l -> lane_of !! j = Some l ->
    disjoint a b.

(** Number of lanes whose last event ends after [t]. *)
Definition busy (t : instant) (lanes : list instant) : nat :=
  length (filter (fun l => t < l) lanes).

Definition sorted_by_start : list item -> Prop :=
  StronglySorted (fun a b => item_start a <= item_start b).

(** The value of [lane_count = len(lanes)] at the end of [_compute_lanes]. *)
Definition lanes_opened (parse : string -> option instant) (events : list event) : nat :=
  length (pack (sort_by_start (collect parse events))).1.

(** The events of a layout, in the order of the layout. *)
Definition layout_events (out : list (event * nat * nat)) : list event := out.*1.*1.

(** The lane and the lane count of every entry of a layout. *)
Definition layout_lanes (out : list (event * nat * nat)) : list (nat * nat) :=
  (fun p => (p.1.2, p.2)) <$> out.

(** The interval of an item, without its event. *)
Definition item_times (it : item) : instant * instant := (item_start it, item_end it).

(** A parser on a few literal timestamps of one day (microseconds after
    midnight), for the concrete scenarios. *)
Definition hour : Z := 3600000000.

Definition sample_parse (iso : string) : option instant :=
  if String.eqb iso "2024-03-04T09:00:00Z" then Some (9 * hour)
  else if String.eqb iso "2024-03-04T09:30:00Z" then Some (9 * hour + hour / 2)
  else if String.eqb iso "2024-03-04T10:00:00Z" then Some (10 * hour)
  else if String.eqb iso "2024-03-04T10:30:00Z" then Some (10 * hour + hour / 2)
  else if String.eqb iso "2024-03-04T11:00:00Z" then Some (11 * hour)
  else None.

Definition timed (name title s e : string) : event :=
  {| ev_id := name; summary := Some title;
     start := Some (TimeField (Some s) None);
     end_ := Some (TimeField (Some e) None) |}.

Definition ev_A : event := timed "A" "Standup" "2024-03-04T09:00:00Z" "2024-03-04T10:00:00Z".
Definition ev_B : event := timed "B" "[Task] Report" "2024-03-04T09:30:00Z" "2024-03-04T10:30:00Z".
Definition ev_C : event := timed "C" "Review" "2024-03-04T10:00:00Z" "2024-03-04T11:00:00Z".
(** Zero duration, all-day and unparsable events. *)
Definition ev_Z : event := timed "Z" "Ping" "2024-03-04T10:00:00Z" "2024-03-04T10:00:00Z".
Definition ev_allday : event :=
  {| ev_id := "D"; summary := Some "Holiday";
     start := Some (TimeField None (Some "2024-03-04"));
     end_ := Some (TimeField None (Some "2024-03-05")) |}.
Definition ev_bad : event := timed "E" "Broken" "yesterday" "2024-03-04T10:00:00Z".

(** ** The re-plan coordinator *)

Record warning := Warning { severity : string }.

Record task := Task { scheduled_start : option instant }.

(** The attributes of [CalendarApp] the coordinator reads and writes.
    [_last_replan_time] is a naive local [datetime], in microseconds. *)
Record app := App {
  _is_replanning : bool;
  _last_replan_time : option Z;
  events : list event
}.

(** What one run on the UI thread observes of its collaborators. *)
Record env := Env {
  now : Z;                                  (* datetime.now() *)
  list_events : option (list event);        (* client.list_events(...); None: it raises *)
  render_ok : bool;                         (* _render and the status update return *)
  replan_on_event_change : bool;            (* optimizer.replan_on_event_change *)
  tasks : list task;                        (* scheduler.tasks *)
  analyze_capacity : option (list warning); (* optimizer.analyze_capacity(days=3); None: it raises *)
  thread_start_ok : bool                    (* threading.Thread(...).start() returns *)
}.

(** [self._replan_cooldown = 5], in seconds. *)
Definition _replan_cooldown : Z := 5.

(** Every [return] of [_check_and_replan], the dispatch, and the outer
    [except]. *)
Inductive rejection := AlreadyRunning | Cooldown | NothingToReplan | NotWarranted.

Inductive outcome :=
  | Rejected (why : rejection)
  | Accepted (reason : string)
  | Failed.

Definition is_accepted (o : outcome) : bool :=
  match o with Accepted _ => true | _ => false end.

(** [any(ev.get("summary", "").startswith("[Task]") for ev in events)] *)
Definition has_task_events (evs : list event) : bool :=
  existsb (fun ev => String.prefix "[Task]" (default EmptyString (summary ev))) evs.

(** [any(t.scheduled_start for t in self.scheduler.tasks)] *)
Definition has_scheduled_tasks (ts : list task) : bool :=
  existsb (fun t => bool_decide (is_Some (scheduled_start t))) ts.

(** [(now - last).total_seconds() < self._replan_cooldown]; the quotient
    by [10^6] of a whole number of microseconds is below [5] exactly when
    the number is below [5 * 10^6]. *)
Definition in_cooldown (a : app) (e : env) : bool :=
  match _last_replan_time a with
  | Some last => bool_decide (now e - last < _replan_cooldown * 1000000)
  | None => false
  end.

Definition is_critical (w : warning) : bool := String.eqb (severity w) "critical".

Definition set_replanning (b : bool) (a : app) : app :=
  {| _is_replanning := b; _last_replan_time := _last_replan_time a; events := events a |}.

Definition _check_and_replan (a : app) (e : env) : app * outcome :=
  if _is_replanning a then (a, Rejected AlreadyRunning)
  else if in_cooldown a e then (a, Rejected Cooldown)
  else
    let has_task := has_task_events (events a) in
    let has_sched := has_scheduled_tasks (tasks e) in
    if negb has_task && negb has_sched then (a, Rejected NothingToReplan)
    else
      match analyze_capacity e with
      | None => (set_replanning false a, Failed)
      | Some warnings =>
          let critical := List.filter is_critical warnings in
          let should_replan :=
            negb (bool_decide (critical = [])) || (has_task && negb (_is_replanning a)) in
          if should_replan then
            let a' := {| _is_replanning := true;
                         _last_replan_time := Some (now e);
                         events := events a |} in
            if thread_start_ok e then
              (a', Accepted (if bool_decide (critical = [])
                             then "Schedule change - shuffling tasks"
                             else "Critical capacity overload detected"))
            else (set_replanning false a', Failed)
          else (a, Rejected NotWarranted)
      end.

(** The background worker [replan_async]: what [optimizer.auto_replan]
    gave, and the callbacks the worker hands to the UI thread with
    [root.after(0, ...)], in order. *)
Inductive replan_result :=
  | ReplanSuccess (calendar_tasks scheduler_tasks : nat)
  | ReplanNoTasks
  | ReplanOther (message : string)
  | ReplanRaised.

Inductive ui_callback :=
  | ClearReplanning
  | ShowInfo
  | PrintMessage
  | RefreshEvents (skip_replan : bool).

Definition replan_async (r : replan_result) : list ui_callback :=
  match r with
  | ReplanSuccess _ _ => [ClearReplanning; ShowInfo; RefreshEvents true]
  | ReplanNoTasks => [ClearReplanning]
  | ReplanOther _ => [ClearReplanning; PrintMessage]
  | ReplanRaised => [ClearReplanning]
  end.

(** [refresh_events(skip_replan)]: the second component is the outcome of
    [_check_and_replan] when the refresh called it. *)
Definition refresh_events (skip_replan : bool) (a : app) (e : env) : app * option outcome :=
  match list_events e with
  | None => (a, None)
  | Some items =>
      let a1 := {| _is_replanning := _is_replanning a;
                   _last_replan_time := _last_replan_time a;
                   events := items |} in
      if render_ok e then
        if replan_on_event_change e && negb skip_replan && negb (_is_replanning a1) then
          let '(a2, o) := _check_and_replan a1 e in (a2, Some o)
        else (a1, None)
      else (a1, None)
  end.

Definition run_callback (cb : ui_callback) (a : app) (e : env) : app * option outcome :=
  match cb with
  | ClearReplanning => (set_replanning false a, None)
  | ShowInfo | PrintMessage => (a, None)
  | RefreshEvents skip => refresh_events skip a e
  end.

(** The UI thread runs the callbacks one after the other; [ctx k] is what
    the [k]-th of them observes. *)
Fixpoint run_callbacks (ctx : nat -> env) (cbs : list ui_callback) (a : app)
  : app * list (option outcome) :=
  match cbs with
  | [] => (a, [])
  | cb :: cbs' =>
      let '(a1, o) := run_callback cb a (ctx O) in
      let '(a2, os) := run_callbacks (fun k => ctx (S k)) cbs' a1 in
      (a2, o :: os)
  end.

(** Triggers fired back to back on the UI thread, nothing else in between. *)
Fixpoint run_triggers (a : app) (es : list env) : app * list outcome :=
  match es with
  | [] => (a, [])
  | e :: es' =>
      let '(a1, o) := _check_and_replan a e in
      let '(a2, os) := run_triggers a1 es' in
      (a2, o :: os)
  end.

Definition count_accepted (os : list outcome) : nat :=
  length (List.filter is_accepted os).

(** The application with its worker threads: [in_flight] workers are inside
    [optimizer.auto_replan], [pending] is the queue of [root.after]
    callbacks. *)
Record system := System {
  sys_app : app;
  in_flight : nat;
  pending : list ui_callback
}.

Definition spawned (o : option outcome) : nat :=
  match o with Some (Accepted _) => 1%nat | _ => 0%nat end.

Inductive step : system -> system -> Prop :=
  | step_refresh a n q skip e a' o :
      refresh_events skip a e = (a', o) ->
      step (System a n q) (System a' (n + spawned o) q)
  | step_edit a n q evs :
      step (System a n q)
           (System {| _is_replanning := _is_replanning a;
                      _last_replan_time := _last_replan_time a;
                      events := evs |} n q)
  | step_worker_done a n q r :
      step (System a (S n) q) (System a n (q ++ replan_async r))
  | step_callback a n cb q e a' o :
      run_callback cb a e = (a', o) ->
      step (System a n (cb :: q)) (System a' (n + spawned o) q).

Definition initial (a : app) : system :=
  System {| _is_replanning := false; _last_replan_time := None; events := events a |} 0 [].

Definition reachable (s : system) : Prop :=
  exists a, rtc step (initial a) s.

(** Callbacks of the queue that clear [_is_replanning]. *)
Definition is_clear (cb : ui_callback) : bool :=
  match cb with ClearReplanning => true | _ => false end.

Definition clears (q : list ui_callback) : nat := length (List.filter is_clear q).

(** A trigger qualifies when there is something to re-plan and the
    capacity analysis asks for it: tagged events, or tracked tasks together
    with a critical warning (and the collaborators answer). *)
Definition qualifying (a : app) (e : env) : bool :=
  match analyze_capacity e with
  | Some warnings =>
      thread_start_ok e
      && (has_task_events (events a)
          || (has_scheduled_tasks (tasks e)
              && negb (bool_decide (List.filter is_critical warnings = []))))
  | None => false
  end.

(** The same observation with another answer of [analyze_capacity]. *)
Definition with_capacity (c : option (list warning)) (e : env) : env :=
  {| now := now e; list_events := list_events e; render_ok := render_ok e;
     replan_on_event_change := replan_on_event_change e; tasks := tasks e;
     analyze_capacity := c; thread_start_ok := thread_start_ok e |}.

(** The flag covers every worker and every pending release of the flag. *)
Definition covered (s : system) : Prop :=
  (in_flight s + clears (pending s)
   <= if _is_replanning (sys_app s) then 1 else 0)%nat.

(** The application once the worker of a dispatched re-plan has returned
    [r] and the UI thread has run its callbacks. *)
Definition completed (ctx : nat -> env) (r : replan_result) (a : app) : app :=
  (run_callbacks ctx (replan_async r) a).1.

Definition sample_env (t : Z) (ws : list warning) : env :=
  {| now := t; list_events := Some [ev_A; ev_B; ev_C]; render_ok := true;
     replan_on_event_change := true; tasks := [];
     analyze_capacity := Some ws; thread_start_ok := true |}.

Definition sample_app : app :=
  {| _is_replanning := false; _last_replan_time := None; events := [ev_A; ev_B; ev_C] |}.

(** No tagged event in the calendar. *)
Definition untagged_app : app :=
  {| _is_replanning := false; _last_replan_time := None; events := [ev_A; ev_C] |}.

(** ** Week navigation

    Dates are proleptic Gregorian ordinals ([date.toordinal()]); ordinal 1
    is a Monday, so [date.weekday()] is [(ordinal + 6) % 7]. *)

Definition weekday (d : Z) : Z := (d + 6) mod 7.

Record week_view := WeekView {
  today_date : Z;
  week_start : Z
}.

(** [__init__]: [today_date = now.date()],
    [week_start = today_date - timedelta(days=today_date.weekday())]. *)
Definition init_week (today : Z) : week_view :=
  {| today_date := today; week_start := today - weekday today |}.

Definition prev_week (v : week_view) : week_view :=
  {| today_date := today_date v; week_start := week_start v - 7 |}.

Definition next_week (v : week_view) : week_view :=
  {| today_date := today_date v; week_start := week_start v + 7 |}.

(** [go_today] reads the clock again. *)
Definition go_today (today : Z) (v : week_view) : week_view := init_week today.

Inductive nav := NavPrev | NavNext | NavToday (today : Z).

Definition navigate (v : week_view) (n : nav) : week_view :=
  match n with
  | NavPrev => prev_week v
  | NavNext => next_week v
  | NavToday today => go_today today v
  end.

(** [days = [self.week_start + timedelta(days=i) for i in range(7)]] *)
Definition week_days (v : week_view) : list Z :=
  (fun i : nat => week_start v + Z.of_nat i) <$> seq 0 7.

(** ** Event colours *)

Definition EVENT_COLORS : list string :=
  ["#039BE5"; "#7986CB"; "#33B679"; "#8E24AA"; "#E67C73";
   "#F6BF26"; "#F4511E"; "#616161"; "#3F51B5"; "#0B8043"]%string.

(** [sum(ord(c) for c in ev_id)] *)
Fixpoint ord_sum (s : string) : nat :=
  match s with
  | EmptyString => 0%nat
  | String c s' => (Ascii.nat_of_ascii c + ord_sum s')%nat
  end.

(** [_get_event_color]; [None] would be the [IndexError] of
    [EVENT_COLORS[idx]]. An event without ["id"] has [ev_id = ""]. *)
Definition _get_event_color (ev : event) : option string :=
  EVENT_COLORS !! (ord_sum (ev_id ev) mod length EVENT_COLORS)%nat.

(** ** The updater (src/apollo/updater.py) *)

Record asset := Asset {
  asset_name : option string;
  browser_download_url : option string
}.

(** The JSON of a release, with the keys [check_for_updates] reads; a
    missing key is [None] ([assets] defaults to the empty list). *)
Record release := Release {
  tag_name : option string;
  assets : list asset;
  zipball_url : option string;
  body : option string;
  published_at : option string
}.

Definition CURRENT_VERSION : string := "1.0.2".

Definition update_asset_name : string := "apollo-frontend-update.zip".

(** The loop of [_get_download_url]: [Some u] when it returns [u] (the
    value of [asset.get("browser_download_url")], maybe [None]). *)
Fixpoint first_update_asset (l : list asset) : option (option string) :=
  match l with
  | [] => None
  | a :: l' =>
      if bool_decide (asset_name a = Some update_asset_name)
      then Some (browser_download_url a)
      else first_update_asset l'
  end.

Definition _get_download_url (r : release) : option string :=
  match first_update_asset (assets r) with
  | Some url => url
  | None => zipball_url r
  end.

(** [str.lstrip("v")] *)
Fixpoint lstrip_v (s : string) : string :=
  match s with
  | String c s' => if String.eqb (String c EmptyString) "v" then lstrip_v s' else s
  | EmptyString => EmptyString
  end.

Record update_info := UpdateInfo {
  version : string;
  download_url : option string;
  release_notes : string;
  info_published_at : string
}.

(** [requests.get(api_url, timeout=10)]: it raises, or gives a status and
    a body whose [json()] is a release or raises ([None]). *)
Inductive http_result :=
  | HttpRaised
  | HttpResponse (status : Z) (json : option release).

Section Updater.

(** [version_parser.parse(a) > version_parser.parse(b)] of the
    [packaging] library; [None] when a version does not parse. *)
Variable version_newer : string -> string -> option bool.

Definition check_for_updates (resp : http_result) : option update_info :=
  match resp with
  | HttpRaised => None
  | HttpResponse status json =>
      if bool_decide (status <> 200) then None
      else
        match json with
        | None => None
        | Some release_data =>
            let latest_version := lstrip_v (default EmptyString (tag_name release_data)) in
            if bool_decide (latest_version = EmptyString) then None
            else
              match version_newer latest_version CURRENT_VERSION with
              | Some true =>
                  Some {| version := latest_version;
                          download_url := _get_download_url release_data;
                          release_notes := default EmptyString (body release_data);
                          info_published_at :=
                            default EmptyString (published_at release_data) |}
              | Some false => None
              | None => None
              end
        end
  end.

End Updater.

(** What [run_update] does, in order: the request of
    [check_for_updates] for the latest release, the question to the user,
    and the calls that touch the disk or the network. *)
Inductive update_action :=
  | RequestLatest
  | AskUser
  | Backup
  | Download (url : option string)
  | Apply
  | Restore
  | UpdateVersion (new_version : string).

(** What the steps of one run meet: the answer to the request of
    [check_for_updates], the answer typed (lower-cased), and whether the
    backup, the download and the application of the update succeed. *)
Record update_run := UpdateRun {
  response : http_result;
  answer : string;
  backup_ok : bool;
  download_ok : bool;
  apply_ok : bool
}.

Definition run_update (version_newer : string -> string -> option bool)
    (auto : bool) (u : update_run) : list update_action :=
  RequestLatest ::
  match check_for_updates version_newer (response u) with
  | None => []
  | Some update_info =>
      let asked := if auto then [] else [AskUser] in
      if negb auto && negb (String.eqb (answer u) "y") then asked
      else if negb (backup_ok u) then asked ++ [Backup]
      else if negb (download_ok u)
           then asked ++ [Backup; Download (download_url update_info)]
      else if apply_ok u
           then asked ++ [Backup; Download (download_url update_info); Apply;
                          UpdateVersion (version update_info)]
      else asked ++ [Backup; Download (download_url update_info); Apply; Restore]
  end.

(** [k] times the letter v in front of [s]. *)
Fixpoint v_prefix (k : nat) (s : string) : string :=
  match k with
  | O => s
  | S k' => String.append "v" (v_prefix k' s)
  end.

Definition sample_newer (a b : string) : option bool :=
  if String.eqb a "1.0.3" then Some true
  else if String.eqb a "1.0.2" then Some false
  else None.

(** ** Times typed by the user ([parse_time_hhmm]) *)

(** [text.split(":")]; the result is never empty. *)
Fixpoint split_colon (s : string) : list string :=
  match s with
  | EmptyString => [EmptyString]
  | String c s' =>
      if String.eqb (String c EmptyString) ":" then EmptyString :: split_colon s'
      else
        match split_colon s' with
        | part :: parts => String c part :: parts
        | [] => [String c EmptyString]
        end
  end.

(** [max(0, min(hi, n))] *)
Definition clamp (hi n : Z) : Z := Z.max 0 (Z.min hi n).

Section ParseTime.

(** [str.strip] and [int]; [None] when [int] raises. *)
Variable strip : string -> string.
Variable py_int : string -> option Z.

Definition parse_time_hhmm (text : option string) : Z * Z :=
  let text := strip (if truthy text then default EmptyString text else EmptyString) in
  let parts := split_colon text in
  match parts !! 0%nat with
  | None => (9, 0)
  | Some part0 =>
      match py_int part0 with
      | None => (9, 0)
      | Some h =>
          if bool_decide (1 < length parts)%nat then
            match parts !! 1%nat with
            | None => (9, 0)
            | Some part1 =>
                match py_int part1 with
                | None => (9, 0)
                | Some m => (clamp 23 h, clamp 59 m)
                end
            end
          else (clamp 23 h, clamp 59 0)
      end
  end.

End ParseTime.

(** No colon in a string. *)
Fixpoint colon_free (s : string) : bool :=
  match s with
  | EmptyString => true
  | String c s' => negb (String.eqb (String c EmptyString) ":") && colon_free s'
  end.

(** ** Backup and restore of the updater

    The folder [user_dir] as a tree of files and directories; a directory
    holds its entries by name, in the order [iterdir] and [os.listdir]
    give them.  Links and failing file operations are left out. *)

#[warnings="-register-all"]
Inductive node :=
  | File (content : string)
  | Dir (entries : list (string * node)).

Fixpoint get_entry (name : string) (es : list (string * node)) : option node :=
  match es with
  | [] => None
  | (n, x) :: es' => if String.eqb n name then Some x else get_entry name es'
  end.

Fixpoint set_entry (name : string) (x : node) (es : list (string * node))
  : list (string * node) :=
  match es with
  | [] => []
  | (n, y) :: es' =>
      if String.eqb n name then (n, x) :: es' else (n, y) :: set_entry name x es'
  end.

(** The node at a path below a node. *)
Fixpoint lookup_path (p : list string) (n : node) : option node :=
  match p with
  | [] => Some n
  | name :: p' =>
      match n with
      | File _ => None
      | Dir es =>
          match get_entry name es with
          | Some m => lookup_path p' m
          | None => None
          end
      end
  end.

(** [fnmatch] for patterns made of plain characters and [*], which
    stands for any run of characters (a leading dot included). *)
Fixpoint fnmatch (pat name : string) : bool :=
  match pat with
  | EmptyString => match name with EmptyString => true | _ => false end
  | String c pat' =>
      if String.eqb (String c EmptyString) "*" then
        (fix star (name : string) : bool :=
           fnmatch pat' name
           || match name with
              | EmptyString => false
              | String _ name' => star name'
              end) name
      else
        match name with
        | EmptyString => false
        | String d name' => Ascii.eqb c d && fnmatch pat' name'
        end
  end.

(** The patterns of [backup_current_version]. *)
Definition backup_ignore : list string :=
  ["__pycache__"; "*.pyc"; "*.db"; "temp_update"; "update.zip"; ".apollo"]%string.

(** The names [restore_backup] leaves in [user_dir]. *)
Definition restore_keep : list string := ["__pycache__"; "temp_update"]%string.

Section Backup.

(** [os.path.normcase], which [fnmatch.filter] applies to the names: the
    identity on POSIX, lower case on Windows. *)
Variable normcase : string -> string.

(** [shutil.ignore_patterns(...)] on one name. *)
Definition ignored (name : string) : bool :=
  existsb (fun pat => fnmatch pat (normcase name)) backup_ignore.

(** [shutil.copytree(src, dst, ignore=...)]: the tree written at [dst];
    the patterns are applied to the names of every directory. *)
Fixpoint copytree (n : node) : node :=
  match n with
  | File c => File c
  | Dir es =>
      Dir ((fix copy (es : list (string * node)) : list (string * node) :=
              match es with
              | [] => []
              | (name, m) :: es' =>
                  if ignored name then copy es' else (name, copytree m) :: copy es'
              end) es)
  end.

Definition copy_entries (es : list (string * node)) : list (string * node) :=
  match copytree (Dir es) with
  | Dir es' => es'
  | File _ => []
  end.

(** [backup_current_version]: the content of [user_backup] afterwards. *)
Definition backup_current_version (user_dir : list (string * node))
  : list (string * node) :=
  copy_entries user_dir.

End Backup.

(** The first loop of [restore_backup]. *)
Definition clear_user_dir (user_dir : list (string * node)) : list (string * node) :=
  filter (fun e => e.1 ∈ restore_keep) user_dir.

(** One round of the second loop: [shutil.copy2(item, dest)] for a file
    (it replaces a file, and writes into [dest] when [dest] is a
    directory), [shutil.copytree(item, dest)] otherwise (it raises when
    [dest] exists).  [None]: the call raises. *)
Definition restore_item (user_dir : list (string * node)) (item : string * node)
  : option (list (string * node)) :=
  let '(name, n) := item in
  match n with
  | File c =>
      match get_entry name user_dir with
      | None => Some (user_dir ++ [(name, File c)])
      | Some (File _) => Some (set_entry name (File c) user_dir)
      | Some (Dir es) =>
          match get_entry name es with
          | None => Some (set_entry name (Dir (es ++ [(name, File c)])) user_dir)
          | Some (File _) =>
              Some (set_entry name (Dir (set_entry name (File c) es)) user_dir)
          | Some (Dir _) => None
          end
      end
  | Dir es =>
      match get_entry name user_dir with
      | None => Some (user_dir ++ [(name, Dir es)])
      | Some _ => None
      end
  end.

Fixpoint restore_items (items user_dir : list (string * node))
  : list (string * node) * bool :=
  match items with
  | [] => (user_dir, true)
  | item :: items' =>
      match restore_item user_dir item with
      | Some user_dir' => restore_items items' user_dir'
      | None => (user_dir, false)
      end
  end.

(** [restore_backup(backup_dir)]: [user_dir] afterwards, and the value
    returned. *)
Definition restore_backup (user_dir backup : list (string * node))
  : list (string * node) * bool :=
  restore_items backup (clear_user_dir user_dir).

(** The names on a path that the backup leaves out. *)
Definition path_ignored (normcase : string -> string) (p : list string) : bool :=
  existsb (ignored normcase) p.

(** A [user_dir] for the concrete scenarios. *)
Definition sample_user_dir : list (string * node) :=
  [("calander.py", File "app");
   ("apollo.db", File "tasks");
   (".apollo", Dir [("token.json", File "secret")]);
   ("__pycache__", Dir [("calander.pyc", File "bytecode")]);
   ("apollo", Dir [("updater.py", File "updater"); ("cache.db", File "cache")])]%string.

(** ** Drawing the week ([_render]) *)

(** [ev.get("start", {}).get("date")] *)
Definition get_date (f : option time_field) : option string :=
  match f with
  | Some tf => date tf
  | None => None
  end.

(** Python's [a or b] on optional strings. *)
Definition py_or (a b : option string) : option string :=
  if truthy a then a else b.

(** The dictionary an event is appended to, with its key. *)
Inductive slot := AllDay (idx : nat) | Timed (idx : nat).

#[global] Instance slot_eq_dec : EqDecision slot.
Proof. solve_decision. Defined.

(** [idx = (d - self.week_start).days] with the test [0 <= idx < 7]. *)
Definition day_index (v : week_view) (d : Z) : option nat :=
  let idx := d - week_start v in
  if bool_decide (0 <= idx < 7) then Some (Z.to_nat idx) else None.

(** A bounding box [(x0, y0, x1, y1)] of the canvas.  The coordinates
    are floats; every float met here is a rational number and Python
    compares an [int] with a [float] exactly. *)
Definition bbox : Type := QArith_base.Q * QArith_base.Q * QArith_base.Q * QArith_base.Q.

(** [x0 <= x <= x1 and y0 <= y <= y1] *)
Definition inside (x y : Z) (b : bbox) : bool :=
  let '(x0, y0, x1, y1) := b in
  QArith_base.Qle_bool x0 (QArith_base.inject_Z x)
  && QArith_base.Qle_bool (QArith_base.inject_Z x) x1
  && QArith_base.Qle_bool y0 (QArith_base.inject_Z y)
  && QArith_base.Qle_bool (QArith_base.inject_Z y) y1.

(** The calls [_render] makes to draw the events. *)
Inductive draw_call :=
  | DrawAllDay (day_idx : nat) (ev : event) (offset : nat)
  | DrawTimed (day_idx : nat) (ev : event) (lane lane_count : nat).

Section Render.

(** [datetime.fromisoformat(iso.replace("Z", "+00:00")).astimezone()] *)
Variable parse : string -> option instant.

(** [dt.date()] of the aware local datetime [dt], as an ordinal. *)
Variable local_date : instant -> Z.

(** [datetime.fromisoformat(start_iso).date()], as an ordinal; [None]
    when [fromisoformat] raises. *)
Variable parse_date : string -> option Z.

(** The geometry of the boxes: [_draw_all_day_event] computes it from
    the column and the offset, [_draw_timed_event] from the column, the
    two instants, the lane and the number of lanes. *)
Variable all_day_box : nat -> nat -> bbox.
Variable timed_box : nat -> instant -> instant -> nat -> nat -> bbox.

(** [self.top_priority_task], a dictionary or [None]: [None] when a test
    of it is false ([None], or an empty dictionary), else [Some] of what
    [.get("title")] gives ([None] without such an entry). *)
Variable top_priority_task : option (option string).

(** One round of the grouping loop of [_render]: where the event is
    appended; [None] is [continue], or an index outside the week. *)
Definition classify (v : week_view) (ev : event) : option slot :=
  let start_iso := py_or (get_dateTime (start ev)) (get_date (start ev)) in
  if negb (truthy start_iso) then None
  else
    match start_iso with
    | Some iso =>
        if bool_decide (String.length iso <= 10)%nat then
          match parse_date iso with
          | Some d => AllDay <$> day_index v d
          | None => None
          end
        else
          match parse iso with
          | Some dt => Timed <$> day_index v (local_date dt)
          | None => None
          end
    | None => None
    end.

(** [grouped] and [all_day_events]: dictionaries with the keys 0..6,
    kept as lists of seven buckets. *)
Definition buckets : Type := list (list event) * list (list event).

Definition group_step (v : week_view) (st : buckets) (ev : event) : buckets :=
  match classify v ev with
  | Some (AllDay idx) => (st.1, alter (fun items => items ++ [ev]) idx st.2)
  | Some (Timed idx) => (alter (fun items => items ++ [ev]) idx st.1, st.2)
  | None => st
  end.

Definition group_events (v : week_view) (evs : list event) : buckets :=
  foldl (group_step v) (replicate 7 [], replicate 7 []) evs.

(** The events [_render] appends to [grouped[idx]] and to
    [all_day_events[idx]]. *)
Definition timed_of_day (v : week_view) (idx : nat) (evs : list event) : list event :=
  filter (fun ev => classify v ev = Some (Timed idx)) evs.

Definition all_day_of_day (v : week_view) (idx : nat) (evs : list event) : list event :=
  filter (fun ev => classify v ev = Some (AllDay idx)) evs.

(** The event a drawing call draws. *)
Definition call_event (d : draw_call) : event :=
  match d with
  | DrawAllDay _ ev _ => ev
  | DrawTimed _ ev _ _ => ev
  end.

(** The two drawing loops of [_render], in the order of the calls. *)
Definition draw_calls (v : week_view) (evs : list event) : list draw_call :=
  let '(grouped, all_day_events) := group_events v evs in
  mjoin (imap (fun day_idx items =>
                 imap (fun i ev => DrawAllDay day_idx ev i) items)
              all_day_events)
  ++ mjoin (imap (fun day_idx items =>
                    match items with
                    | [] => []
                    | _ =>
                        (fun '(ev, lane, lane_count) =>
                           DrawTimed day_idx ev lane lane_count)
                          <$> _compute_lanes parse items
                    end)
                 grouped).

(** [_draw_all_day_event]: what it appends to [render_boxes]; [None]
    when it raises.  After the box is appended, a priority task that is
    set is compared with the title of the event by
    [self.top_priority_task.get("title") in event_title], which raises a
    [TypeError] when the task has no title; with a title the two [in]
    tests decide only whether the badge is drawn. *)
Definition _draw_all_day_event (day_idx : nat) (ev : event) (offset : nat)
  : option (list (bbox * string)) :=
  match top_priority_task with
  | Some None => None
  | Some (Some _) | None => Some [(all_day_box day_idx offset, ev_id ev)]
  end.

(** [_draw_timed_event]: what it appends to [render_boxes]; [None] when
    one of its two unguarded calls of [fromisoformat] raises.  Its test of
    the priority task reads the title with a default
    ([.get("title", "")], then [if task_title and ...]) and cannot
    raise. *)
Definition _draw_timed_event (day_idx : nat) (ev : event) (lane lane_count : nat)
  : option (list (bbox * string)) :=
  let start_iso := get_dateTime (start ev) in
  let end_iso := get_dateTime (end_ ev) in
  if negb (truthy start_iso) || negb (truthy end_iso) then Some []
  else
    match start_iso, end_iso with
    | Some s', Some e' =>
        match parse s', parse e' with
        | Some s, Some e => Some [(timed_box day_idx s e lane lane_count, ev_id ev)]
        | _, _ => None
        end
    | _, _ => Some []
    end.

Definition draw (d : draw_call) : option (list (bbox * string)) :=
  match d with
  | DrawAllDay day_idx ev offset => _draw_all_day_event day_idx ev offset
  | DrawTimed day_idx ev lane lane_count => _draw_timed_event day_idx ev lane lane_count
  end.

(** The box a drawing call leaves in [render_boxes]. *)
Definition box_of_call (d : draw_call) (b : bbox * string) : Prop :=
  b.2 = ev_id (call_event d)
  /\ match d with
     | DrawAllDay i _ k => b.1 = all_day_box i k
     | DrawTimed i ev lane n =>
         exists s e, parse_item parse ev = Some (ev, s, e)
                     /\ b.1 = timed_box i s e lane n
     end.

(** [_render]: the [render_boxes] it leaves; [None] when a drawing call
    raises. *)
Definition _render (v : week_view) (evs : list event) : option (list (bbox * string)) :=
  mjoin <$> mapM draw (draw_calls v evs).

End Render.

(** [_on_click]: the loop over [render_boxes] stops at the first box
    that holds the point. *)
Definition hit_test (x y : Z) (boxes : list (bbox * string)) : option string :=
  match list_find (fun b => inside x y b.1 = true) boxes with
  | Some (_, (_, ev_id)) => Some ev_id
  | None => None
  end.

(** What [_on_click] does next: select the event hit, or clear the
    selection and call [_start_drag_create]. *)
Inductive click := Select (ev_id : string) | StartDrag.

Definition _on_click (x y : Z) (boxes : list (bbox * string)) : click :=
  match hit_test x y boxes with
  | Some hit => if truthy (Some hit) then Select hit else StartDrag
  | None => StartDrag
  end.

(** [self.selected_event_id] after the click. *)
Definition selected_event_id (c : click) : option string :=
  match c with
  | Select ev_id => Some ev_id
  | StartDrag => None
  end.

(** [next((e for e in self.events if e.get("id") == event_id), None)] of
    [_edit_event] and [delete_selected]. *)
Definition find_event (event_id : string) (evs : list event) : option (nat * event) :=
  list_find (fun e => ev_id e = event_id) evs.

(** ** Editing the selected event *)




(** A week and a canvas for the concrete scenarios: Monday 4 March 2024
    has the ordinal 738949; the boxes are those of a canvas 1210 pixels
    wide (columns of 160 pixels), in exact arithmetic. *)
Definition sample_local_date (t : instant) : Z := 738949 + t / (24 * hour).

Definition sample_parse_date (iso : string) : option Z :=
  if String.eqb iso "2024-03-04" then Some 738949 else None.

Definition sample_week : week_view := init_week 738949.

Definition sample_all_day_box (day_idx offset : nat) : bbox :=
  (QArith_base.inject_Z (70 + 160 * Z.of_nat day_idx + 4),
   QArith_base.inject_Z (64 + 20 * Z.of_nat offset),
   QArith_base.inject_Z (70 + 160 * (Z.of_nat day_idx + 1) - 4),
   QArith_base.inject_Z (64 + 20 * Z.of_nat offset + 18)).

Definition sample_timed_box (day_idx : nat) (s e : instant) (lane lane_count : nat) : bbox :=
  let lane_w := QArith_base.Qmake 152 (Pos.of_nat (Nat.max 1 lane_count)) in
  let x0 := QArith_base.Qplus (QArith_base.inject_Z (70 + 160 * Z.of_nat day_idx + 4))
              (QArith_base.Qmult (QArith_base.inject_Z (Z.of_nat lane)) lane_w) in
  let x1 := QArith_base.Qminus (QArith_base.Qplus x0 lane_w) (QArith_base.inject_Z 4) in
  let e' := if bool_decide (e <= s) then s + hour / 2 else e in
  let y0 := 100 + (s mod (24 * hour)) / (hour / 60) in
  let y1 := 100 + (e' mod (24 * hour)) / (hour / 60) - 2 in
  (x0, QArith_base.inject_Z y0, x1,
   QArith_base.inject_Z (if bool_decide (y1 - y0 < 24) then y0 + 24 else y1)).

(** * The sort of [_compute_lanes] *)

Lemma insert_by_start_Permutation x l : insert_by_start x l ≡ₚ x :: l.
Proof.
  induction l as [|y l IH]; simpl; [done|].
  case_bool_decide; [done|].
  rewrite IH. apply Permutation_swap.
Qed.

Lemma sort_by_start_Permutation l : sort_by_start l ≡ₚ l.
Proof.
  induction l as [|x l IH]; simpl; [done|].
  by rewrite insert_by_start_Permutation, IH.
Qed.

Lemma insert_by_start_sorted x l :
  sorted_by_start l -> sorted_by_start (insert_by_start x l).
Proof.
  unfold sorted_by_start.
  induction 1 as [|y l Hs IH Hy]; simpl.
  - repeat constructor.
  - case_bool_decide as Hxy.
    + constructor; [by constructor|].
      constructor; [done|].
      eapply Forall_impl; [exact Hy|]. simpl; intros; lia.
    + constructor; [done|].
      rewrite insert_by_start_Permutation. constructor; [lia|done].
Qed.

Lemma sort_by_start_sorted l : sorted_by_start (sort_by_start l).
Proof.
  induction l as [|x l IH]; simpl.
  - constructor.
  - by apply insert_by_start_sorted.
Qed.

(** Stability: the events that start at the same instant keep the order
    they had in the input. *)
Lemma insert_by_start_stable k x l :
  filter (fun it => item_start it = k) (insert_by_start x l)
  = filter (fun it => item_start it = k) (x :: l).
Proof.
  induction l as [|y l IH]; simpl; [done|].
  case_bool_decide as Hxy; [done|].
  rewrite (filter_cons _ y), IH, !filter_cons.
  repeat case_decide; try done; lia.
Qed.

Lemma sort_by_start_stable k l :
  filter (fun it => item_start it = k) (sort_by_start l)
  = filter (fun it => item_start it = k) l.
Proof.
  induction l as [|x l IH]; simpl; [done|].
  by rewrite insert_by_start_stable, !filter_cons, IH.
Qed.

Lemma sort_by_start_sorted_id l : sorted_by_start l -> sort_by_start l = l.
Proof.
  unfold sorted_by_start.
  induction 1 as [|x l Hs IH Hx]; simpl; [done|].
  rewrite IH. destruct Hx as [|y l Hxy _]; simpl; [done|].
  by rewrite bool_decide_true.
Qed.

Lemma sorted_by_start_snoc items x :
  sorted_by_start (items ++ [x]) ->
  sorted_by_start items /\ Forall (fun it => item_start it <= item_start x) items.
Proof.
  unfold sorted_by_start. rewrite StronglySorted_app.
  intros (Hle & Hs & _). split; [done|].
  apply Forall_forall. intros y Hy. apply Hle; [done|]. by apply list_elem_of_singleton.
Qed.

(** * The packing loop *)

Lemma pack_snoc items x : pack (items ++ [x]) = place (pack items) x.
Proof. apply foldl_snoc. Qed.

(** The two ways a round of the loop ends: the first lane that is free at
    the start of the event is taken, or every lane is still busy and a new
    one is opened. *)
Lemma place_spec (st : pack_state) (x : item) :
  (exists i l,
      st.1 !! i = Some l /\ l <= item_start x /\
      (forall j y, st.1 !! j = Some y -> (j < i)%nat -> item_start x < y) /\
      place st x = (<[i := item_end x]> st.1, st.2 ++ [(item_event x, i)]))
  \/ (Forall (fun l => item_start x < l) st.1 /\
      place st x = (st.1 ++ [item_end x], st.2 ++ [(item_event x, length st.1)])).
Proof.
  destruct st as [lanes layout], x as [[ev s] e].
  unfold place, item_start, item_end, item_event; simpl.
  destruct (list_find (fun l => l <= s) lanes) as [[i l]|] eqn:Hfind.
  - left. apply list_find_Some in Hfind as (Hi & Hl & Hbefore).
    exists i, l. repeat split; try done.
    intros j y Hj Hlt. specialize (Hbefore j y Hj Hlt). lia.
  - right. apply list_find_None in Hfind. split; [|done].
    eapply Forall_impl; [exact Hfind|]. simpl; intros; lia.
Qed.

Lemma pack_layout_events items :
  (pack items).2.*1 = item_event <$> items.
Proof.
  induction items as [|x items IH] using rev_ind; [done|].
  rewrite pack_snoc.
  destruct (place_spec (pack items) x) as [(i & l & _ & _ & _ & ->)|[_ ->]];
    simpl; by rewrite !fmap_app, IH.
Qed.

Lemma pack_layout_length items : length (pack items).2 = length items.
Proof.
  rewrite <-(length_fmap fst), pack_layout_events. apply length_fmap.
Qed.

Lemma pack_layout_bound items :
  Forall (fun p => (p.2 < length (pack items).1)%nat) (pack items).2.
Proof.
  induction items as [|x items IH] using rev_ind; [constructor|].
  rewrite pack_snoc.
  destruct (place_spec (pack items) x) as [(i & l & Hi & _ & _ & ->)|[_ ->]];
    simpl; apply Forall_app; split.
  - eapply Forall_impl; [exact IH|]. simpl; intros. by rewrite length_insert.
  - repeat constructor. simpl. rewrite length_insert. by eapply lookup_lt_Some.
  - eapply Forall_impl; [exact IH|]. simpl; intros. rewrite length_app; simpl; lia.
  - repeat constructor. simpl. rewrite length_app; simpl; lia.
Qed.

(** * Depth against the lanes in use *)

Lemma depth_at_snoc t items x :
  depth_at t (items ++ [x])
  = (depth_at t items + (if decide (active t x) then 1 else 0))%nat.
Proof.
  unfold depth_at. rewrite filter_app, length_app. f_equal.
  rewrite filter_cons, filter_nil. by case_decide.
Qed.

Lemma depth_at_Permutation t l1 l2 : l1 ≡ₚ l2 -> depth_at t l1 = depth_at t l2.
Proof. intros Hp. unfold depth_at. by rewrite Hp. Qed.

Lemma busy_snoc t lanes e :
  busy t (lanes ++ [e]) = (busy t lanes + (if decide (t < e)%Z then 1 else 0))%nat.
Proof.
  unfold busy. rewrite filter_app, length_app. f_equal.
  rewrite filter_cons, filter_nil. by case_decide.
Qed.

Lemma busy_insert t lanes i l e :
  lanes !! i = Some l -> l <= t ->
  busy t (<[i := e]> lanes)
  = (busy t lanes + (if decide (t < e)%Z then 1 else 0))%nat.
Proof.
  intros Hi Hl.
  apply list_elem_of_split_length in Hi as (l1 & l2 & -> & ->).
  rewrite insert_app_r_alt by lia. rewrite Nat.sub_diag. simpl.
  unfold busy. rewrite !filter_app, !length_app, !filter_cons.
  repeat case_decide; simpl; lia.
Qed.

Lemma busy_all t lanes : Forall (fun l => t < l) lanes -> busy t lanes = length lanes.
Proof.
  unfold busy. induction 1 as [|l lanes Hl _ IH]; [done|].
  rewrite filter_cons_True by done. simpl. f_equal. exact IH.
Qed.

Lemma busy_le t lanes : (busy t lanes <= length lanes)%nat.
Proof. apply length_filter. Qed.

Lemma place_lanes_length st x : (length st.1 <= length (place st x).1)%nat.
Proof.
  destruct (place_spec st x) as [(i & l & _ & _ & _ & ->)|[_ ->]]; simpl.
  - by rewrite length_insert.
  - rewrite length_app. lia.
Qed.

(** At an instant not before the last start, the events still active are
    exactly the busy lanes. *)
Lemma pack_depth_busy items :
  sorted_by_start items ->
  forall t, Forall (fun it => item_start it <= t) items ->
  depth_at t items = busy t (pack items).1.
Proof.
  induction items as [|x items IH] using rev_ind; [done|].
  intros [Hs Hle]%sorted_by_start_snoc t [Ht Hx]%Forall_app.
  rewrite Forall_singleton in Hx.
  rewrite depth_at_snoc, pack_snoc, (IH Hs t Ht).
  destruct (place_spec (pack items) x) as [(i & l & Hi & Hl & _ & ->)|[_ ->]]; simpl.
  - rewrite (busy_insert t _ i l) by (done || lia). f_equal.
    unfold active. repeat case_decide; try done; lia.
  - rewrite busy_snoc. f_equal.
    unfold active. repeat case_decide; try done; lia.
Qed.

(** No instant sees more active events than there are lanes. *)
Lemma pack_depth_le items :
  sorted_by_start items ->
  forall t, (depth_at t items <= length (pack items).1)%nat.
Proof.
  induction items as [|x items IH] using rev_ind; [done|].
  intros Hsorted t.
  destruct (sorted_by_start_snoc _ _ Hsorted) as [Hs Hle].
  destruct (decide (item_start x <= t)) as [Hx|Hx].
  - rewrite (pack_depth_busy _ Hsorted t); [apply busy_le|].
    apply Forall_app. split; [|by apply Forall_singleton].
    eapply Forall_impl; [exact Hle|]. simpl; intros; lia.
  - rewrite depth_at_snoc, pack_snoc.
    rewrite decide_False by (unfold active; lia).
    specialize (IH Hs t). pose proof (place_lanes_length (pack items) x). lia.
Qed.

(** With events of positive duration, the number of lanes is reached at
    the start of some event. *)
Lemma pack_depth_attained items :
  sorted_by_start items ->
  Forall (fun it => item_start it < item_end it) items ->
  items <> [] ->
  exists x, x ∈ items /\ depth_at (item_start x) items = length (pack items).1.
Proof.
  induction items as [|x items IH] using rev_ind; [done|].
  intros Hsorted [Hpos Hx]%Forall_app _.
  rewrite Forall_singleton in Hx.
  destruct (sorted_by_start_snoc _ _ Hsorted) as [Hs Hle].
  pose proof (pack_depth_le _ Hsorted) as Hupper.
  rewrite pack_snoc in Hupper |- *.
  destruct (place_spec (pack items) x) as [(i & l & Hi & Hl & _ & Hp)|[Hbusy Hp]];
    rewrite Hp in Hupper |- *; simpl in *.
  - rewrite length_insert in Hupper |- *.
    destruct items as [|y items'] using rev_ind; [done|]. clear IHitems'.
    destruct (IH Hs Hpos) as (z & Hz & Hdepth); [by destruct items'|].
    exists z. split; [apply elem_of_app; by left|].
    specialize (Hupper (item_start z)). rewrite depth_at_snoc in Hupper |- *. lia.
  - exists x. split; [apply elem_of_app; right; by apply list_elem_of_singleton|].
    rewrite depth_at_snoc, (pack_depth_busy _ Hs) by done.
    rewrite (busy_all _ _ Hbusy), length_app. simpl. f_equal.
    rewrite decide_True; [done|]. unfold active. lia.
Qed.

(** * Events that share a lane *)

(** When a lane is free at an instant not before the last start, every
    event placed in it has ended by then. *)
Lemma pack_released items :
  sorted_by_start items ->
  forall t, Forall (fun it => item_start it <= t) items ->
  forall k it ev i l,
    items !! k = Some it ->
    (pack items).2 !! k = Some (ev, i) ->
    (pack items).1 !! i = Some l ->
    l <= t -> item_end it <= t.
Proof.
  induction items as [|x items IH] using rev_ind; [done|].
  intros [Hs Hle]%sorted_by_start_snoc t [Ht Hx]%Forall_app k it ev i l.
  rewrite Forall_singleton in Hx.
  pose proof (pack_layout_length items) as Hlen.
  pose proof (pack_layout_bound items) as Hbound.
  rewrite pack_snoc.
  destruct (place_spec (pack items) x) as [(j & lj & Hj & Hlj & _ & ->)|[_ ->]]; simpl;
    intros Hit Hlay Hlane Hfree;
    apply lookup_snoc_Some in Hit as [[Hk Hit]|[-> <-]];
    apply lookup_snoc_Some in Hlay as [[Hk' Hlay]|[Hk' Heq]]; try lia.
  - destruct (decide (i = j)) as [->|Hne].
    + eapply (IH Hs t Ht k it ev j lj); try done. lia.
    + rewrite list_lookup_insert_ne in Hlane by done. by eapply IH.
  - injection Heq as _ <-.
    rewrite list_lookup_insert_eq in Hlane by (by eapply lookup_lt_Some).
    by injection Hlane as <-.
  - pose proof (proj1 (Forall_lookup _ _) Hbound k _ Hlay) as Hi. simpl in Hi.
    rewrite lookup_app_l in Hlane by done. by eapply IH.
  - injection Heq as _ <-.
    rewrite lookup_app_r, Nat.sub_diag in Hlane by done.
    by injection Hlane as <-.
Qed.

(** An event placed in a lane starts after every earlier event of the
    lane has ended. *)
Lemma pack_same_lane items :
  sorted_by_start items ->
  forall k k' a b eva evb i,
    (k < k')%nat ->
    items !! k = Some a -> items !! k' = Some b ->
    (pack items).2 !! k = Some (eva, i) ->
    (pack items).2 !! k' = Some (evb, i) ->
    item_end a <= item_start b.
Proof.
  induction items as [|x items IH] using rev_ind; [done|].
  intros [Hs Hle]%sorted_by_start_snoc k k' a b eva evb i Hlt.
  pose proof (pack_layout_length items) as Hlen.
  pose proof (pack_layout_bound items) as Hbound.
  rewrite pack_snoc.
  intros Ha Hb.
  apply lookup_snoc_Some in Ha as [[Hk Ha]|[-> <-]];
    apply lookup_snoc_Some in Hb as [[Hk' Hb]|[-> <-]]; try lia.
  - destruct (place_spec (pack items) x) as [(j & lj & _ & _ & _ & ->)|[_ ->]]; simpl;
      rewrite !lookup_app_l by lia; by eapply IH.
  - destruct (place_spec (pack items) x) as [(j & lj & Hj & Hlj & _ & ->)|[_ ->]]; simpl;
      rewrite lookup_app_l by lia; rewrite lookup_app_r, Hlen, Nat.sub_diag by lia;
      simpl; intros Hlay [= _ <-].
    + eapply (pack_released items Hs (item_start x) Hle k a eva j lj); done || lia.
    + pose proof (proj1 (Forall_lookup _ _) Hbound k _ Hlay) as Hi. simpl in Hi. lia.
Qed.

(** * From the loop to the result of [_compute_lanes] *)

Section Packer.

Context (parse : string -> option instant).

Lemma parse_item_event ev it : parse_item parse ev = Some it -> item_event it = ev.
Proof.
  unfold parse_item. intros Hp.
  destruct (negb _ || negb _); [done|].
  destruct (get_dateTime (start ev)) as [s|]; [|done].
  destruct (get_dateTime (end_ ev)) as [e|]; [|done].
  destruct (parse s), (parse e); try done. by injection Hp as <-.
Qed.

Lemma collect_parse events it :
  it ∈ collect parse events -> parse_item parse (item_event it) = Some it.
Proof.
  unfold collect. intros (ev & _ & Hev)%list_elem_of_omap.
  by rewrite (parse_item_event _ _ Hev).
Qed.

Lemma collect_events events :
  item_event <$> collect parse events
  = filter (fun ev => is_Some (parse_item parse ev)) events.
Proof.
  unfold collect. induction events as [|ev events IH]; [done|].
  rewrite filter_cons. simpl.
  destruct (parse_item parse ev) as [it|] eqn:Hit.
  - rewrite decide_True by eauto. simpl. f_equal; [by eapply parse_item_event|exact IH].
  - rewrite decide_False by (by intros [? ?]). exact IH.
Qed.

Lemma compute_lanes_lookup events i ev lane n :
  _compute_lanes parse events !! i = Some (ev, lane, n) <->
  (pack (sort_by_start (collect parse events))).2 !! i = Some (ev, lane)
  /\ n = lanes_opened parse events.
Proof.
  unfold _compute_lanes, lanes_opened.
  destruct (pack (sort_by_start (collect parse events))) as [lanes layout]; simpl.
  rewrite list_lookup_fmap. split.
  - destruct (layout !! i) as [[ev' lane']|]; simpl; [|done].
    by intros [= -> -> <-].
  - by intros [-> ->].
Qed.

Lemma compute_lanes_events events :
  layout_events (_compute_lanes parse events)
  = item_event <$> sort_by_start (collect parse events).
Proof.
  rewrite <-pack_layout_events. unfold layout_events, _compute_lanes.
  destruct (pack (sort_by_start (collect parse events))) as [lanes layout]; simpl.
  rewrite <-!list_fmap_compose. apply list_fmap_ext. by intros _ [ev lane] _.
Qed.

(** The item behind a position of the result. *)
Lemma compute_lanes_item events i ev lane n it :
  _compute_lanes parse events !! i = Some (ev, lane, n) ->
  parse_item parse ev = Some it ->
  sort_by_start (collect parse events) !! i = Some it.
Proof.
  intros [Hlay _]%compute_lanes_lookup Hit.
  pose proof (pack_layout_events (sort_by_start (collect parse events))) as Hev.
  apply (f_equal (fun l => l !! i)) in Hev.
  rewrite !list_lookup_fmap, Hlay in Hev. simpl in Hev.
  destruct (sort_by_start (collect parse events) !! i) as [it'|] eqn:Hi; [|done].
  injection Hev as Hev.
  assert (it' ∈ collect parse events) as Hin.
  { rewrite <-(sort_by_start_Permutation (collect parse events)).
    by eapply list_elem_of_lookup_2. }
  apply collect_parse in Hin. rewrite <-Hev, Hit in Hin. by injection Hin as ->.
Qed.

End Packer.

(** * The lane packer: lanes never hold overlapping events *)

(** C3: two distinct entries of the result of [_compute_lanes] that carry
    the same lane belong to events whose intervals do not overlap: one of
    them ends no later than the other starts. *)
Theorem compute_lanes_same_lane_disjoint parse events i j eva evb lane n m a b :
  i <> j ->
  _compute_lanes parse events !! i = Some (eva, lane, n) ->
  _compute_lanes parse events !! j = Some (evb, lane, m) ->
  parse_item parse eva = Some a ->
  parse_item parse evb = Some b ->
  item_end a <= item_start b \/ item_end b <= item_start a.
Proof.
  intros Hij Hi Hj Ha Hb.
  pose proof (compute_lanes_item _ _ _ _ _ _ _ Hi Ha) as Hia.
  pose proof (compute_lanes_item _ _ _ _ _ _ _ Hj Hb) as Hjb.
  apply compute_lanes_lookup in Hi as [Hi _].
  apply compute_lanes_lookup in Hj as [Hj _].
  pose proof (sort_by_start_sorted (collect parse events)) as Hsorted.
  destruct (decide (i < j)%nat) as [Hlt|Hge].
  - left. by eapply (pack_same_lane _ Hsorted i j a b eva evb lane).
  - right. eapply (pack_same_lane _ Hsorted j i b a evb eva lane); done || lia.
Qed.

Lemma compute_lanes_same_lane_disjoint_witness :
  item_end (ev_A, 9 * hour, 10 * hour) <= item_start (ev_C, 10 * hour, 11 * hour)
  \/ item_end (ev_C, 10 * hour, 11 * hour) <= item_start (ev_A, 9 * hour, 10 * hour).
Proof.
  apply (compute_lanes_same_lane_disjoint sample_parse [ev_A; ev_B; ev_C]
           0%nat 2%nat ev_A ev_C 0%nat 2%nat 2%nat);
    [lia | vm_compute; reflexivity ..].
Defined.

(** * The lane packer: every timed event is laid out once *)

Lemma parse_item_None parse ev :
  parse_item parse ev = None <->
  truthy (get_dateTime (start ev)) = false
  \/ truthy (get_dateTime (end_ ev)) = false
  \/ (exists s, get_dateTime (start ev) = Some s /\ parse s = None)
  \/ (exists e, get_dateTime (end_ ev) = Some e /\ parse e = None).
Proof.
  unfold parse_item.
  destruct (get_dateTime (start ev)) as [s|]; [|simpl; tauto].
  destruct (truthy (Some s)) eqn:Hs; [|simpl; tauto].
  destruct (get_dateTime (end_ ev)) as [e|]; [|simpl; tauto].
  destruct (truthy (Some e)) eqn:He; [|simpl; tauto].
  simpl.
  destruct (parse s) as [ps|] eqn:Hps.
  - destruct (parse e) as [pe|] eqn:Hpe.
    + split; [done|].
      intros [?|[?|[(s' & [= <-] & ?)|(e' & [= <-] & ?)]]]; congruence.
    + split; [|done]. intros _. right; right; right. by exists e.
  - split; [|done]. intros _. right; right; left. by exists s.
Qed.

(** C10: [_compute_lanes] returns a layout for every input: the events
    without a start or end [dateTime], or with one that does not parse, are
    left out, and only they; every other event has exactly one entry; every
    entry carries the number of lanes opened, and a lane below it. *)
Theorem compute_lanes_total parse events :
  layout_events (_compute_lanes parse events)
    ≡ₚ filter (fun ev => is_Some (parse_item parse ev)) events
  /\ (forall ev,
        parse_item parse ev = None <->
        truthy (get_dateTime (start ev)) = false
        \/ truthy (get_dateTime (end_ ev)) = false
        \/ (exists s, get_dateTime (start ev) = Some s /\ parse s = None)
        \/ (exists e, get_dateTime (end_ ev) = Some e /\ parse e = None))
  /\ (forall ev,
        ev ∈ layout_events (_compute_lanes parse events) <->
        ev ∈ events /\ is_Some (parse_item parse ev))
  /\ (forall ev lane n,
        (ev, lane, n) ∈ _compute_lanes parse events ->
        n = lanes_opened parse events /\ (lane < n)%nat).
Proof.
  assert (layout_events (_compute_lanes parse events)
            ≡ₚ filter (fun ev => is_Some (parse_item parse ev)) events) as Hperm.
  { rewrite compute_lanes_events, <-collect_events.
    by rewrite sort_by_start_Permutation. }
  split; [exact Hperm|]. split; [apply parse_item_None|]. split.
  - intros ev. rewrite Hperm, list_elem_of_filter. tauto.
  - intros ev lane n (i & Hi)%list_elem_of_lookup_1.
    apply compute_lanes_lookup in Hi as [Hi ->]. split; [done|].
    pose proof (pack_layout_bound (sort_by_start (collect parse events))) as Hb.
    apply (proj1 (Forall_lookup _ _) Hb i _ Hi).
Qed.

(** * The lane packer: as many lanes as the overlap depth *)

Lemma max_list_le (ns : list nat) b :
  Forall (fun n => (n <= b)%nat) ns -> (max_list ns <= b)%nat.
Proof. induction 1 as [|n ns Hn _ IH]; simpl; lia. Qed.

Lemma overlap_depth_le items b :
  (forall t, (depth_at t items <= b)%nat) -> (overlap_depth items <= b)%nat.
Proof.
  intros Hb. apply max_list_le, Forall_fmap, Forall_forall. intros it _. apply Hb.
Qed.

Lemma overlap_depth_ge items x :
  x ∈ items -> (depth_at (item_start x) items <= overlap_depth items)%nat.
Proof.
  intros Hx. apply max_list_elem_of_le, list_elem_of_fmap. by exists x.
Qed.

(** The lanes of the events active at [t], under an assignment. *)
Lemma active_lanes_length t items (lane_of : list nat) :
  length lane_of = length items ->
  length (filter (fun p => active t p.1) (zip items lane_of)) = depth_at t items.
Proof.
  unfold depth_at. revert lane_of.
  induction items as [|a items IH]; intros [|l lane_of] Hlen; try done.
  simpl. rewrite !filter_cons. simpl.
  injection Hlen as Hlen. specialize (IH _ Hlen).
  case_decide; simpl; by rewrite IH.
Qed.

Lemma active_lanes_NoDup t items (lane_of : list nat) :
  (forall i j a b l,
      i <> j -> items !! i = Some a -> items !! j = Some b ->
      lane_of !! i = Some l -> lane_of !! j = Some l -> disjoint a b) ->
  NoDup (filter (fun p => active t p.1) (zip items lane_of)).*2.
Proof.
  revert lane_of.
  induction items as [|a items IH]; intros [|l lane_of] Hvalid; try (simpl; constructor).
  assert (NoDup (filter (fun p => active t p.1) (zip items lane_of)).*2) as Htail.
  { apply IH. intros i j x y l' Hij Hx Hy Hlx Hly.
    apply (Hvalid (S i) (S j) x y l'); simpl; done || lia. }
  simpl. rewrite filter_cons. simpl. case_decide as Ha; [|done].
  simpl. constructor; [|done].
  intros ([b l'] & Heq & [Hb Hin]%list_elem_of_filter)%list_elem_of_fmap.
  simpl in Heq, Hb. subst l'.
  apply list_elem_of_lookup_1 in Hin as [j Hj].
  apply lookup_zip_with_Some in Hj as (b' & l' & [= <- <-] & Hjb & Hjl).
  specialize (Hvalid O (S j) a b l). simpl in Hvalid.
  unfold disjoint, active in *. destruct Hvalid; done || lia.
Qed.

(** The depth is a lower bound for every valid assignment. *)
Lemma valid_assignment_depth items lane_of k t :
  valid_assignment items lane_of k -> (depth_at t items <= k)%nat.
Proof.
  intros (Hlen & Hlt & Hvalid).
  rewrite <-(active_lanes_length t items lane_of Hlen).
  rewrite <-(length_fmap snd).
  trans (length (seq 0 k)); [|by rewrite length_seq].
  apply submseteq_length, NoDup_submseteq; [by apply active_lanes_NoDup|].
  intros l ([b l'] & -> & [_ Hin]%list_elem_of_filter)%list_elem_of_fmap.
  simpl. apply elem_of_zip_r in Hin. simpl in Hin.
  rewrite Forall_forall in Hlt. specialize (Hlt _ Hin).
  apply elem_of_seq. lia.
Qed.

(** The lanes the packer gives are themselves a valid assignment. *)
Lemma pack_valid_assignment items :
  sorted_by_start items ->
  valid_assignment items (pack items).2.*2 (length (pack items).1).
Proof.
  intros Hsorted. split; [|split].
  - by rewrite length_fmap, pack_layout_length.
  - apply Forall_fmap. apply pack_layout_bound.
  - intros i j a b l Hij Ha Hb Hi Hj.
    apply list_lookup_fmap_Some in Hi as ([eva l1] & -> & Hi).
    apply list_lookup_fmap_Some in Hj as ([evb l2] & Hl & Hj).
    simpl in Hl. subst l2. simpl in Hi.
    destruct (decide (i < j)%nat).
    + left. by eapply (pack_same_lane items Hsorted i j).
    + right. eapply (pack_same_lane items Hsorted j i); done || lia.
Qed.

(** * The sweep-line reference *)

#[global] Instance endpoint_le_total : Total endpoint_le.
Proof.
  intros [t1 b1] [t2 b2]. unfold endpoint_le; simpl.
  destruct (Z.lt_trichotomy t1 t2) as [?|[?|?]], b1, b2; auto.
Qed.

#[global] Instance endpoint_le_trans : Transitive endpoint_le.
Proof.
  intros [t1 b1] [t2 b2] [t3 b3]. unfold endpoint_le; simpl.
  intros [H12|[H12 Hb12]] [H23|[H23 Hb23]]; [left; lia ..|].
  right. split; [lia|].
  destruct Hb12 as [Hb|Hb], Hb23 as [Hb'|Hb']; auto. congruence.
Qed.

Lemma filter_none {A} (P : A -> Prop) `{!forall x, Decision (P x)} (l : list A) :
  Forall (fun x => ~ P x) l -> filter P l = [].
Proof.
  induction 1 as [|x l Hx _ IH]; [done|]. by rewrite filter_cons_False.
Qed.

Lemma filter_on {A} (P Q : A -> Prop)
    `{!forall x, Decision (P x), !forall x, Decision (Q x)} (l : list A) :
  Forall (fun x => P x <-> Q x) l -> filter P l = filter Q l.
Proof.
  induction 1 as [|x l Hx _ IH]; [done|].
  rewrite !filter_cons, IH. repeat case_decide; tauto.
Qed.

Lemma net_cons p l : net (p :: l) = (if p.2 then 1 else -1) + net l.
Proof.
  unfold net. rewrite !filter_cons.
  destruct p as [t []]; simpl; repeat case_decide; try done; simpl; lia.
Qed.

Lemma net_app l1 l2 : net (l1 ++ l2) = net l1 + net l2.
Proof. unfold net. rewrite !filter_app, !length_app. lia. Qed.

Lemma sweep_cur l st : (foldl sweep_step st l).1 = st.1 + net l.
Proof.
  revert st. induction l as [|p l IH]; intros st; simpl.
  - unfold net. simpl. lia.
  - rewrite IH, net_cons. unfold sweep_step. destruct (p.2); simpl; lia.
Qed.

Lemma sweep_best_mono l st : st.2 <= (foldl sweep_step st l).2.
Proof.
  revert st. induction l as [|p l IH]; intros st; simpl; [lia|].
  etrans; [|apply IH]. unfold sweep_step. destruct (p.2); simpl; lia.
Qed.

(** The counter right after a start is kept. *)
Lemma sweep_best_ge l1 p l2 st :
  p.2 = true ->
  st.1 + net (l1 ++ [p]) <= (foldl sweep_step st (l1 ++ p :: l2)).2.
Proof.
  intros Hp. rewrite foldl_app. simpl.
  etrans; [|apply sweep_best_mono].
  unfold sweep_step at 1. rewrite Hp. simpl.
  rewrite sweep_cur, net_app, net_cons, Hp. unfold net at 2. simpl. lia.
Qed.

(** A bound of the counter after every start is a bound of the result. *)
Lemma sweep_best_le l D st :
  st.2 <= D ->
  (forall l1 p l2, l = l1 ++ p :: l2 -> p.2 = true -> st.1 + net (l1 ++ [p]) <= D) ->
  (foldl sweep_step st l).2 <= D.
Proof.
  revert st. induction l as [|q l IH]; intros st Hb Hstarts; simpl; [done|].
  apply IH.
  - unfold sweep_step. destruct (q.2) eqn:Hq; simpl; [|done].
    specialize (Hstarts [] q l eq_refl Hq). simpl in Hstarts.
    rewrite net_cons, Hq in Hstarts. unfold net in Hstarts. simpl in Hstarts. lia.
  - intros l1 p l2 -> Hp.
    specialize (Hstarts (q :: l1) p l2 eq_refl Hp). simpl in Hstarts.
    rewrite net_cons in Hstarts.
    unfold sweep_step. destruct (q.2); simpl; lia.
Qed.

Lemma endpoints_started t items :
  length (filter (fun q : endpoint => q.2 = true /\ q.1 <= t) (endpoints items))
  = started t items.
Proof.
  unfold endpoints, started. induction items as [|it items IH]; [done|].
  rewrite bind_cons, filter_app, length_app, IH, !filter_cons. simpl.
  repeat case_decide; simpl; try done; tauto.
Qed.

Lemma endpoints_ended t items :
  length (filter (fun q : endpoint => q.2 = false /\ q.1 <= t) (endpoints items))
  = ended t items.
Proof.
  unfold endpoints, ended. induction items as [|it items IH]; [done|].
  rewrite bind_cons, filter_app, length_app, IH, !filter_cons. simpl.
  repeat case_decide; simpl; try done; tauto.
Qed.

Lemma depth_started_ended t items :
  Forall (fun it => item_start it < item_end it) items ->
  (depth_at t items + ended t items = started t items)%nat.
Proof.
  unfold depth_at, ended, started.
  induction 1 as [|it items Hit _ IH]; [done|].
  rewrite !filter_cons.
  repeat case_decide; simpl; unfold active in *; lia.
Qed.

(** In the sorted list of endpoints, the counter right after a start at
    [t] counts events active at [t], all of them when it is the last start
    at [t]. *)
Lemma sweep_prefix items (l l1 : list endpoint) t (l2 : list endpoint) :
  Forall (fun it => item_start it < item_end it) items ->
  StronglySorted endpoint_le l ->
  l ≡ₚ endpoints items ->
  l = l1 ++ (t, true) :: l2 ->
  net (l1 ++ [(t, true)]) <= Z.of_nat (depth_at t items)
  /\ ((t, true) ∉ l2 -> net (l1 ++ [(t, true)]) = Z.of_nat (depth_at t items)).
Proof.
  intros Hpos Hsorted Hperm ->.
  apply StronglySorted_app in Hsorted as (Hbefore & _ & Hafter).
  apply StronglySorted_cons in Hafter as [Hafter _].
  assert (Forall (fun q : endpoint => q.1 <= t) (l1 ++ [(t, true)])) as Hold.
  { apply Forall_app. split; [|by repeat constructor].
    apply Forall_forall. intros q Hq.
    destruct (Hbefore q (t, true) Hq) as [?|[? _]]; [apply list_elem_of_here| |];
      simpl in *; lia. }
  assert (filter (fun q : endpoint => q.2 = false /\ q.1 <= t) l2 = []) as Hends.
  { apply filter_none. eapply Forall_impl; [exact Hafter|].
    intros [t' b] Hle [Hb Ht]. simpl in *. subst b.
    destruct Hle as [?|[? [?|?]]]; simpl in *; done || lia. }
  assert ((t, true) ∉ l2 ->
          filter (fun q : endpoint => q.2 = true /\ q.1 <= t) l2 = []) as Hstarts.
  { intros Hlast. apply filter_none, Forall_forall. intros [t' b] Hq [Hb Ht].
    simpl in *. subst b.
    rewrite Forall_forall in Hafter.
    destruct (Hafter _ Hq) as [?|[? _]]; simpl in *; [lia|]. by subst t'. }
  pose proof (depth_started_ended t items Hpos) as Hdepth.
  rewrite <-(endpoints_started t items), <-(endpoints_ended t items) in Hdepth.
  rewrite cons_middle, (assoc_L (++)) in Hperm.
  rewrite <-!Hperm in Hdepth.
  rewrite !(filter_app _ (l1 ++ [(t, true)]) l2), !length_app, Hends in Hdepth.
  simpl in Hdepth.
  unfold net.
  rewrite (filter_on (fun q : endpoint => q.2 = true)
             (fun q : endpoint => q.2 = true /\ q.1 <= t) (l1 ++ [(t, true)]))
    by (eapply Forall_impl; [exact Hold|]; simpl; tauto).
  rewrite (filter_on (fun q : endpoint => q.2 = false)
             (fun q : endpoint => q.2 = false /\ q.1 <= t) (l1 ++ [(t, true)]))
    by (eapply Forall_impl; [exact Hold|]; simpl; tauto).
  split; [lia|]. intros Hlast. rewrite (Hstarts Hlast) in Hdepth. simpl in Hdepth. lia.
Qed.

(** The sweep gives the overlap depth. *)
Lemma sweep_depth_overlap items :
  Forall (fun it => item_start it < item_end it) items ->
  sweep_depth items = overlap_depth items.
Proof.
  intros Hpos. unfold sweep_depth.
  set (l := merge_sort endpoint_le (endpoints items)).
  assert (StronglySorted endpoint_le l) as Hsorted
    by (apply StronglySorted_merge_sort; apply _).
  assert (l ≡ₚ endpoints items) as Hperm by apply merge_sort_Permutation.
  apply Nat.le_antisymm.
  - apply Nat2Z.inj_le. rewrite Z2Nat.id by apply (sweep_best_mono l (0, 0)).
    apply sweep_best_le; [simpl; lia|].
    intros l1 [t b] l2 Hl Hb. simpl in Hb. subst b. simpl.
    destruct (sweep_prefix items l l1 t l2 Hpos Hsorted Hperm Hl) as [Hle _].
    etrans; [exact Hle|]. apply Nat2Z.inj_le.
    assert ((t, true) ∈ endpoints items) as Hin.
    { rewrite <-Hperm, Hl. apply elem_of_app. right. apply list_elem_of_here. }
    apply list_elem_of_bind in Hin as (x & Hx & Hitem).
    apply elem_of_cons in Hx as [[= ->]|Hx]; [by apply overlap_depth_ge|].
    by apply list_elem_of_singleton in Hx.
  - destruct (decide (items = [])) as [->|Hne]; [apply Nat.le_0_l|].
    assert (overlap_depth items
              ∈ (fun it => depth_at (item_start it) items) <$> items) as Hmax.
    { apply max_list_elem_of. by destruct items. }
    apply list_elem_of_fmap in Hmax as (x & -> & Hx).
    assert ((item_start x, true) ∈ l) as Hin.
    { rewrite Hperm. apply list_elem_of_bind. exists x. split; [|done].
      apply list_elem_of_here. }
    apply list_elem_of_split_r in Hin as (l1 & l2 & Hl & Hlast).
    destruct (sweep_prefix items l l1 _ l2 Hpos Hsorted Hperm Hl) as [_ Heq].
    apply Nat2Z.inj_le. rewrite Z2Nat.id by apply (sweep_best_mono l (0, 0)).
    rewrite <-(Heq Hlast), Hl.
    apply (sweep_best_ge l1 (item_start x, true) l2 (0, 0)). done.
Qed.

Section PackerCover.

Context (parse : string -> option instant).

Lemma layout_events_elem out ev :
  ev ∈ layout_events out <-> exists lane n, (ev, lane, n) ∈ out.
Proof.
  unfold layout_events. split.
  - intros ([ev' lane] & -> & ([[ev'' lane'] n] & [= -> ->] & Hin)%list_elem_of_fmap)%list_elem_of_fmap.
    by exists lane', n.
  - intros (lane & n & Hin). apply list_elem_of_fmap. exists (ev, lane). split; [done|].
    apply list_elem_of_fmap. by exists (ev, lane, n).
Qed.

Lemma compute_lanes_layout_events items ev :
  ev ∈ layout_events (_compute_lanes parse items) <->
  ev ∈ items /\ is_Some (parse_item parse ev).
Proof.
  rewrite compute_lanes_events, sort_by_start_Permutation, collect_events.
  rewrite list_elem_of_filter. tauto.
Qed.

Lemma compute_lanes_elem items ev lane n :
  (ev, lane, n) ∈ _compute_lanes parse items ->
  ev ∈ items /\ is_Some (parse_item parse ev)
  /\ (lane < n)%nat /\ n = lanes_opened parse items.
Proof.
  intros Hin.
  assert (ev ∈ layout_events (_compute_lanes parse items)) as Hev
    by (apply layout_events_elem; eauto).
  apply compute_lanes_layout_events in Hev as [? ?]. do 2 (split; [done|]).
  apply list_elem_of_lookup_1 in Hin as [i Hi].
  apply compute_lanes_lookup in Hi as [Hi ->]. split; [|done].
  pose proof (pack_layout_bound (sort_by_start (collect parse items))) as Hb.
  apply (proj1 (Forall_lookup _ _) Hb i _ Hi).
Qed.

Lemma compute_lanes_covers items ev :
  ev ∈ items -> is_Some (parse_item parse ev) ->
  exists lane, (ev, lane, lanes_opened parse items) ∈ _compute_lanes parse items.
Proof.
  intros Hin Hp.
  assert (ev ∈ layout_events (_compute_lanes parse items)) as Hev
    by (by apply compute_lanes_layout_events).
  apply layout_events_elem in Hev as (lane & n & Hev). exists lane.
  by destruct (compute_lanes_elem _ _ _ _ Hev) as (_ & _ & _ & <-).
Qed.

(** Every lane of [lanes] was opened for an event of the layout. *)
Lemma pack_lanes_used items lane :
  (lane < length (pack items).1)%nat -> exists ev, (ev, lane) ∈ (pack items).2.
Proof.
  induction items as [|x items IH] using rev_ind; [simpl; lia|].
  rewrite pack_snoc.
  destruct (place_spec (pack items) x) as [(i & l & Hi & _ & _ & ->)|[_ ->]];
    cbn [fst snd].
  - rewrite length_insert. intros Hlane.
    destruct (IH Hlane) as [ev Hev]. exists ev. apply elem_of_app. by left.
  - rewrite length_app. simpl. intros Hlane.
    destruct (decide (lane = length (pack items).1)) as [->|Hne].
    + exists (item_event x). apply elem_of_app. right. apply list_elem_of_here.
    + destruct IH as [ev Hev]; [lia|]. exists ev. apply elem_of_app. by left.
Qed.

Lemma compute_lanes_layout items ev lane :
  (ev, lane) ∈ (pack (sort_by_start (collect parse items))).2 ->
  (ev, lane, lanes_opened parse items) ∈ _compute_lanes parse items.
Proof.
  intros (i & Hi)%list_elem_of_lookup_1.
  apply (list_elem_of_lookup_2 _ i). by apply compute_lanes_lookup.
Qed.

Lemma compute_lanes_length items :
  length (_compute_lanes parse items) = length (collect parse items).
Proof.
  unfold _compute_lanes.
  pose proof (pack_layout_length (sort_by_start (collect parse items))) as Hlen.
  destruct (pack (sort_by_start (collect parse items))) as [lanes layout].
  simpl in *. rewrite length_fmap, Hlen.
  apply Permutation_length, sort_by_start_Permutation.
Qed.

End PackerCover.

(** C1: when every event of the day has its start before its end, the
    number of lanes [_compute_lanes] opens is the overlap depth of the day:
    the value the sweep line gives (and the largest depth at a start),
    never exceeded at any instant, reached at some instant, a lower bound
    for every valid assignment of lanes, and the number of lanes of the
    valid assignment the packer returns.  The result of [_compute_lanes]
    has one tuple for every event whose start and end parse, each tuple
    carries that depth as its lane count, and every lane below it is the
    lane of some tuple. *)
Theorem lanes_opened_is_overlap_depth parse events :
  Forall (fun it => item_start it < item_end it) (collect parse events) ->
  lanes_opened parse events = sweep_depth (collect parse events)
  /\ lanes_opened parse events = overlap_depth (collect parse events)
  /\ (forall t, (depth_at t (collect parse events) <= lanes_opened parse events)%nat)
  /\ (collect parse events <> [] ->
      exists t, depth_at t (collect parse events) = lanes_opened parse events)
  /\ (forall items lane_of k,
        items ≡ₚ collect parse events ->
        valid_assignment items lane_of k -> (lanes_opened parse events <= k)%nat)
  /\ valid_assignment (sort_by_start (collect parse events))
        (pack (sort_by_start (collect parse events))).2.*2
        (lanes_opened parse events)
  /\ (forall ev lane n,
        (ev, lane, n) ∈ _compute_lanes parse events -> n = lanes_opened parse events)
  /\ length (_compute_lanes parse events) = length (collect parse events)
  /\ (forall ev,
        ev ∈ events -> is_Some (parse_item parse ev) ->
        exists lane,
          (lane < overlap_depth (collect parse events))%nat
          /\ (ev, lane, overlap_depth (collect parse events))
               ∈ _compute_lanes parse events)
  /\ (forall ev lane n,
        (ev, lane, n) ∈ _compute_lanes parse events ->
        n = sweep_depth (collect parse events)
        /\ n = overlap_depth (collect parse events) /\ (lane < n)%nat)
  /\ (forall lane,
        (lane < overlap_depth (collect parse events))%nat ->
        exists ev,
          (ev, lane, overlap_depth (collect parse events))
            ∈ _compute_lanes parse events).
Proof.
  intros Hpos.
  enough (lanes_opened parse events = sweep_depth (collect parse events)
          /\ lanes_opened parse events = overlap_depth (collect parse events)
          /\ (forall t, (depth_at t (collect parse events) <= lanes_opened parse events)%nat)
          /\ (collect parse events <> [] ->
              exists t, depth_at t (collect parse events) = lanes_opened parse events)
          /\ (forall items lane_of k,
                items ≡ₚ collect parse events ->
                valid_assignment items lane_of k -> (lanes_opened parse events <= k)%nat)
          /\ valid_assignment (sort_by_start (collect parse events))
                (pack (sort_by_start (collect parse events))).2.*2
                (lanes_opened parse events)
          /\ (forall ev lane n,
                (ev, lane, n) ∈ _compute_lanes parse events ->
                n = lanes_opened parse events))
    as (Hsweep & Hdepth & Hupper & Hreached & Hlower & Hvalid & Hcount).
  { do 7 (split; [assumption|]). split; [apply compute_lanes_length|].
    split; [|split].
    - intros ev Hev Hp.
      destruct (compute_lanes_covers parse events ev Hev Hp) as [lane Hin].
      exists lane. rewrite <-Hdepth. split; [|done].
      by destruct (compute_lanes_elem parse _ _ _ _ Hin) as (_ & _ & ? & _).
    - intros ev lane n Hin.
      destruct (compute_lanes_elem parse _ _ _ _ Hin) as (_ & _ & Hlane & ->).
      by rewrite <-Hsweep, <-Hdepth.
    - intros lane Hlane. rewrite <-Hdepth in *.
      destruct (pack_lanes_used (sort_by_start (collect parse events)) lane Hlane)
        as [ev Hev].
      exists ev. by apply compute_lanes_layout. }
  unfold lanes_opened.
  set (items := collect parse events) in *.
  pose proof (sort_by_start_sorted items) as Hsorted.
  pose proof (sort_by_start_Permutation items) as Hperm.
  assert (forall t, (depth_at t items <= length (pack (sort_by_start items)).1)%nat)
    as Hupper.
  { intros t. rewrite <-(depth_at_Permutation t _ _ Hperm). by apply pack_depth_le. }
  assert (items <> [] ->
          exists x, x ∈ items /\
            depth_at (item_start x) items = length (pack (sort_by_start items)).1)
    as Hreached.
  { intros Hne.
    destruct (pack_depth_attained (sort_by_start items)) as (x & Hx & Hd); [done| | |].
    - by rewrite Hperm.
    - intros Hnil. rewrite Hnil in Hperm. by apply Permutation_nil_l in Hperm.
    - exists x. split; [by rewrite <-Hperm|].
      by rewrite <-(depth_at_Permutation _ _ _ Hperm). }
  assert (length (pack (sort_by_start items)).1 = overlap_depth items) as Hdepth.
  { apply Nat.le_antisymm; [|by apply overlap_depth_le].
    destruct (decide (items = [])) as [Hnil|Hne].
    - rewrite Hnil. simpl. lia.
    - destruct (Hreached Hne) as (x & Hx & <-). by apply overlap_depth_ge. }
  repeat split.
  - by rewrite sweep_depth_overlap.
  - exact Hdepth.
  - exact Hupper.
  - intros Hne. destruct (Hreached Hne) as (x & _ & Hd). by exists (item_start x).
  - intros items' lane_of k Hitems Hvalid.
    destruct (decide (items = [])) as [Hnil|Hne].
    + rewrite Hnil. simpl. lia.
    + destruct (Hreached Hne) as (x & _ & <-).
      rewrite <-(depth_at_Permutation _ _ _ Hitems).
      by eapply valid_assignment_depth.
  - by apply pack_valid_assignment.
  - by apply pack_valid_assignment.
  - by apply pack_valid_assignment.
  - intros ev lane n (i & Hi)%list_elem_of_lookup_1.
    by apply compute_lanes_lookup in Hi as [_ ->].
Qed.

Lemma lanes_opened_is_overlap_depth_witness :
  lanes_opened sample_parse [ev_A; ev_B; ev_C] = 2%nat
  /\ sweep_depth (collect sample_parse [ev_A; ev_B; ev_C]) = 2%nat
  /\ length (_compute_lanes sample_parse [ev_C; ev_B; ev_A]) = 3%nat
  /\ (exists lane,
        (lane < 2)%nat
        /\ (ev_B, lane, 2%nat) ∈ _compute_lanes sample_parse [ev_C; ev_B; ev_A])
  /\ (exists ev, (ev, 1%nat, 2%nat) ∈ _compute_lanes sample_parse [ev_C; ev_B; ev_A]).
Proof.
  assert (Forall (fun it => item_start it < item_end it)
            (collect sample_parse [ev_A; ev_B; ev_C])) as Hpos.
  { repeat constructor. }
  pose proof (proj1 (lanes_opened_is_overlap_depth sample_parse [ev_A; ev_B; ev_C] Hpos))
    as Heq.
  assert (Forall (fun it => item_start it < item_end it)
            (collect sample_parse [ev_C; ev_B; ev_A])) as Hpos'.
  { repeat constructor. }
  destruct (lanes_opened_is_overlap_depth sample_parse [ev_C; ev_B; ev_A] Hpos')
    as (_ & _ & _ & _ & _ & _ & _ & Hlen & Hcover & _ & Hused).
  split; [reflexivity|]. split; [rewrite <-Heq; reflexivity|].
  split; [exact Hlen|]. split.
  - apply (Hcover ev_B); [|by eexists].
    apply list_elem_of_further, list_elem_of_here.
  - apply (Hused 1%nat). vm_compute. lia.
Defined.

(** The condition on the durations is needed: a single event of zero
    duration after a longer one that starts with it takes a second lane,
    while no instant sees two active events. *)
Lemma lanes_opened_zero_duration :
  lanes_opened sample_parse [ev_C; ev_Z] = 2%nat
  /\ sweep_depth (collect sample_parse [ev_C; ev_Z]) = 1%nat
  /\ overlap_depth (collect sample_parse [ev_C; ev_Z]) = 1%nat.
Proof. repeat split; vm_compute; reflexivity. Qed.

(** * The lane packer: adjacent events *)


Ltac run_packer :=
  repeat first
    [ rewrite bool_decide_true by lia
    | rewrite bool_decide_false by lia
    | rewrite decide_True by lia
    | rewrite decide_False by lia
    | progress simpl
    | progress unfold item_start, item_end, item_event, pack ].


Lemma compute_lanes_three parse A B C sA sB sC eB eC :
  parse_item parse A = Some (A, sA, sC) ->
  parse_item parse B = Some (B, sB, eB) ->
  parse_item parse C = Some (C, sC, eC) ->
  sA < sB -> sB < sC -> sC < eB ->
  _compute_lanes parse [A; B; C] = [(A, 0, 2); (B, 1, 2); (C, 0, 2)]%nat.
Proof.
  intros HA HB HC H1 H2 H3.
  unfold _compute_lanes, collect. simpl. rewrite HA, HB, HC.
  run_packer. done.
Qed.











(** * The lane packer: the same input gives the same lanes *)

Lemma collect_item_events parse (l : list item) :
  Forall (fun it => parse_item parse (item_event it) = Some it) l ->
  collect parse (item_event <$> l) = l.
Proof.
  unfold collect. induction 1 as [|it l Hit _ IH]; [done|].
  simpl. rewrite Hit. simpl. f_equal. exact IH.
Qed.

(** Packing the events in the order of a layout gives that layout again. *)
Lemma compute_lanes_idempotent parse events :
  _compute_lanes parse (layout_events (_compute_lanes parse events))
  = _compute_lanes parse events.
Proof.
  rewrite compute_lanes_events.
  unfold _compute_lanes at 1.
  rewrite collect_item_events.
  - rewrite sort_by_start_sorted_id by apply sort_by_start_sorted. done.
  - apply Forall_forall. intros it Hit. apply (collect_parse parse events).
    by rewrite <-(sort_by_start_Permutation (collect parse events)).
Qed.

Lemma fmap_cons_eq {A B} (f : A -> B) x1 x2 l1 l2 :
  f <$> x1 :: l1 = f <$> x2 :: l2 -> f x1 = f x2 /\ f <$> l1 = f <$> l2.
Proof. simpl. intros [= Hx Hl]. by split. Qed.

Lemma insert_by_start_times x1 x2 l1 l2 :
  item_times x1 = item_times x2 ->
  item_times <$> l1 = item_times <$> l2 ->
  item_times <$> insert_by_start x1 l1 = item_times <$> insert_by_start x2 l2.
Proof.
  intros Hx. revert l2.
  induction l1 as [|y1 l1 IH]; intros [|y2 l2] Hl; try done.
  - simpl. by rewrite Hx.
  - apply fmap_cons_eq in Hl as [Hy Hl]. simpl.
    assert (item_start x1 = item_start x2) as -> by exact (f_equal fst Hx).
    assert (item_start y1 = item_start y2) as -> by exact (f_equal fst Hy).
    case_bool_decide; simpl.
    + f_equal; [done|]. f_equal; [done|exact Hl].
    + f_equal; [done|exact (IH l2 Hl)].
Qed.

Lemma sort_by_start_times l1 l2 :
  item_times <$> l1 = item_times <$> l2 ->
  item_times <$> sort_by_start l1 = item_times <$> sort_by_start l2.
Proof.
  revert l2. induction l1 as [|x1 l1 IH]; intros [|x2 l2] Hl; try done.
  apply fmap_cons_eq in Hl as [Hx Hl]. simpl.
  apply insert_by_start_times; [done|by apply IH].
Qed.

Lemma place_times st1 st2 x1 x2 :
  st1.1 = st2.1 -> st1.2.*2 = st2.2.*2 -> item_times x1 = item_times x2 ->
  (place st1 x1).1 = (place st2 x2).1 /\ (place st1 x1).2.*2 = (place st2 x2).2.*2.
Proof.
  destruct st1 as [lanes1 lay1], st2 as [lanes2 lay2].
  destruct x1 as [[ev1 s1] e1], x2 as [[ev2 s2] e2].
  simpl. intros -> Hlay Ht.
  unfold item_times, item_start, item_end in Ht. simpl in Ht.
  injection Ht as -> ->. unfold place.
  destruct (list_find (fun l => l <= s2) lanes2) as [[i l]|]; simpl;
    by rewrite !fmap_app, Hlay.
Qed.

Lemma foldl_place_times l1 l2 st1 st2 :
  item_times <$> l1 = item_times <$> l2 ->
  st1.1 = st2.1 -> st1.2.*2 = st2.2.*2 ->
  (foldl place st1 l1).1 = (foldl place st2 l2).1
  /\ (foldl place st1 l1).2.*2 = (foldl place st2 l2).2.*2.
Proof.
  revert l2 st1 st2.
  induction l1 as [|x1 l1 IH]; intros [|x2 l2] st1 st2 Hl H1 H2; try done.
  apply fmap_cons_eq in Hl as [Hx Hl]. simpl.
  destruct (place_times st1 st2 x1 x2 H1 H2 Hx) as [H1' H2'].
  by apply IH.
Qed.

(** The lanes depend on the instants only, not on what else the events
    carry. *)
Lemma compute_lanes_times parse events1 events2 :
  item_times <$> collect parse events1 = item_times <$> collect parse events2 ->
  layout_lanes (_compute_lanes parse events1)
  = layout_lanes (_compute_lanes parse events2).
Proof.
  intros Ht%sort_by_start_times.
  destruct (foldl_place_times _ _ ([], []) ([], []) Ht eq_refl eq_refl) as [H1 H2].
  unfold layout_lanes, _compute_lanes. fold (pack (sort_by_start (collect parse events1))) in *.
  fold (pack (sort_by_start (collect parse events2))) in *.
  destruct (pack (sort_by_start (collect parse events1))) as [lanes1 lay1].
  destruct (pack (sort_by_start (collect parse events2))) as [lanes2 lay2].
  simpl in *. subst lanes2.
  rewrite <-!list_fmap_compose.
  trans ((fun l => (l, length lanes1)) <$> lay1.*2).
  - rewrite <-list_fmap_compose. apply list_fmap_ext. by intros _ [ev lane] _.
  - rewrite H2, <-list_fmap_compose. apply list_fmap_ext. by intros _ [ev lane] _.
Qed.

(** C9: the events are laid out in the order of their start instants,
    events with the same start in the order of the input (whatever their
    title or id); the lanes depend on the instants only; and packing again
    the events of a layout, in its order, gives the same layout. *)
Theorem compute_lanes_deterministic parse events :
  let items := sort_by_start (collect parse events) in
  sorted_by_start items
  /\ items ≡ₚ collect parse events
  /\ (forall k,
        filter (fun it => item_start it = k) items
        = filter (fun it => item_start it = k) (collect parse events))
  /\ layout_events (_compute_lanes parse events) = item_event <$> items
  /\ (forall events',
        item_times <$> collect parse events' = item_times <$> collect parse events ->
        layout_lanes (_compute_lanes parse events')
        = layout_lanes (_compute_lanes parse events))
  /\ _compute_lanes parse (layout_events (_compute_lanes parse events))
     = _compute_lanes parse events.
Proof.
  simpl. split; [apply sort_by_start_sorted|].
  split; [apply sort_by_start_Permutation|].
  split; [intros k; apply sort_by_start_stable|].
  split; [apply compute_lanes_events|].
  split; [intros events'; apply compute_lanes_times|].
  apply compute_lanes_idempotent.
Qed.

(** * The re-plan coordinator: one re-plan at a time *)

Lemma check_running a e :
  _is_replanning a = true -> _check_and_replan a e = (a, Rejected AlreadyRunning).
Proof. unfold _check_and_replan. by intros ->. Qed.

(** What a call leaves behind: an accepted trigger sets the flag and the
    time of the dispatch; any other outcome leaves the flag as it was. *)
Lemma check_outcome a e :
  match (_check_and_replan a e).2 with
  | Accepted _ =>
      _is_replanning a = false
      /\ _is_replanning (_check_and_replan a e).1 = true
      /\ _last_replan_time (_check_and_replan a e).1 = Some (now e)
  | Rejected _ => (_check_and_replan a e).1 = a
  | Failed =>
      _is_replanning a = false /\ _is_replanning (_check_and_replan a e).1 = false
  end
  /\ events (_check_and_replan a e).1 = events a.
Proof.
  unfold _check_and_replan.
  destruct (_is_replanning a) eqn:Hflag; [done|].
  destruct (in_cooldown a e); [done|].
  destruct (negb _ && negb _); [done|].
  destruct (analyze_capacity e) as [warnings|]; [|done].
  destruct (negb _ || _); [|done].
  by destruct (thread_start_ok e).
Qed.

Lemma check_accepted a e :
  is_accepted (_check_and_replan a e).2 = true ->
  _is_replanning a = false /\ _is_replanning (_check_and_replan a e).1 = true.
Proof.
  pose proof (check_outcome a e) as [H _].
  destruct (_check_and_replan a e).2; try done. intros _. by destruct H as (? & ? & _).
Qed.

Lemma check_not_accepted a e :
  is_accepted (_check_and_replan a e).2 = false ->
  _is_replanning a = false -> _is_replanning (_check_and_replan a e).1 = false.
Proof.
  pose proof (check_outcome a e) as [H _].
  destruct (_check_and_replan a e).2; try done; intros _ Hflag.
  - by rewrite H.
  - by destruct H.
Qed.

Lemma run_triggers_cons a e es :
  run_triggers a (e :: es)
  = ((run_triggers (_check_and_replan a e).1 es).1,
     (_check_and_replan a e).2 :: (run_triggers (_check_and_replan a e).1 es).2).
Proof.
  simpl. destruct (_check_and_replan a e) as [a1 o]. simpl.
  by destruct (run_triggers a1 es).
Qed.

Lemma run_triggers_length a es : length (run_triggers a es).2 = length es.
Proof.
  revert a. induction es as [|e es IH]; intros a; [done|].
  rewrite run_triggers_cons. simpl. by rewrite IH.
Qed.

Lemma run_triggers_running a es :
  _is_replanning a = true ->
  Forall (fun o => o = Rejected AlreadyRunning) (run_triggers a es).2.
Proof.
  intros Hflag. induction es as [|e es IH]; [constructor|].
  rewrite run_triggers_cons, (check_running a e Hflag). simpl. by constructor.
Qed.

Lemma count_accepted_running os :
  Forall (fun o => o = Rejected AlreadyRunning) os -> count_accepted os = 0%nat.
Proof. unfold count_accepted. induction 1 as [|o os -> _ IH]; [done|]. exact IH. Qed.

Lemma count_accepted_cons o os :
  count_accepted (o :: os)
  = ((if is_accepted o then 1 else 0) + count_accepted os)%nat.
Proof. unfold count_accepted. simpl. by destruct (is_accepted o). Qed.

Lemma run_triggers_at_most_one a es : (count_accepted (run_triggers a es).2 <= 1)%nat.
Proof.
  revert a. induction es as [|e es IH]; intros a; [unfold count_accepted; simpl; lia|].
  rewrite run_triggers_cons. simpl. rewrite count_accepted_cons.
  destruct (is_accepted (_check_and_replan a e).2) eqn:Hacc; [|apply IH].
  apply check_accepted in Hacc as [_ Hflag].
  rewrite (count_accepted_running _ (run_triggers_running _ es Hflag)). lia.
Qed.

Lemma run_triggers_after_accepted a es i j reason o :
  (run_triggers a es).2 !! i = Some (Accepted reason) ->
  (i < j)%nat ->
  (run_triggers a es).2 !! j = Some o ->
  o = Rejected AlreadyRunning.
Proof.
  revert a i j. induction es as [|e es IH]; intros a i j; [done|].
  rewrite run_triggers_cons. simpl.
  destruct i as [|i], j as [|j]; simpl; try lia.
  - intros [= Hacc] _ Hj.
    destruct (check_accepted a e) as [_ Hflag]; [by rewrite Hacc|].
    pose proof (run_triggers_running _ es Hflag) as Hall.
    by apply (proj1 (Forall_lookup _ _) Hall j o).
  - intros Hi Hlt Hj. eapply (IH _ i j); done || lia.
Qed.

(** What a refresh does to the flag and to the workers. *)
Lemma refresh_outcome skip a e :
  let r := refresh_events skip a e in
  (spawned r.2 = 1%nat /\ _is_replanning a = false /\ _is_replanning r.1 = true)
  \/ (spawned r.2 = 0%nat /\ _is_replanning r.1 = _is_replanning a).
Proof.
  simpl. unfold refresh_events.
  destruct (list_events e) as [items|]; [|by right].
  destruct (render_ok e); [|by right].
  destruct (replan_on_event_change e && negb skip && negb _) eqn:Hcall; [|by right].
  apply andb_prop in Hcall as [_ Hflag]. simpl in Hflag.
  apply negb_true_iff in Hflag.
  set (a1 := {| _is_replanning := _ |}).
  pose proof (check_outcome a1 e) as [H _].
  destruct (_check_and_replan a1 e) as [a2 o]. simpl in *.
  destruct o as [why|reason|]; [right|left|right].
  - by rewrite H.
  - by destruct H as (_ & ? & _).
  - destruct H as [_ ->]. by rewrite Hflag.
Qed.

Lemma clears_app q1 q2 : clears (q1 ++ q2) = (clears q1 + clears q2)%nat.
Proof. unfold clears. by rewrite List.filter_app, length_app. Qed.

Lemma clears_replan_async r : clears (replan_async r) = 1%nat.
Proof. by destruct r. Qed.

Lemma step_covered s s' : step s s' -> covered s -> covered s'.
Proof.
  unfold covered.
  destruct 1 as [a n q skip e a' o Hr|a n q evs|a n q r|a n cb q e a' o Hr]; simpl.
  - pose proof (refresh_outcome skip a e) as Ho. rewrite Hr in Ho. simpl in Ho.
    destruct Ho as [(Hs & Hf & Hf')|(Hs & Hf)]; rewrite Hs, ?Hf, ?Hf';
      destruct (_is_replanning a); simpl; lia.
  - done.
  - rewrite clears_app, clears_replan_async. lia.
  - destruct cb as [| | |skip]; simpl in Hr.
    + injection Hr as <- <-. unfold clears. simpl.
      destruct (_is_replanning a); simpl; lia.
    + injection Hr as <- <-. unfold clears. simpl. lia.
    + injection Hr as <- <-. unfold clears. simpl. lia.
    + pose proof (refresh_outcome skip a e) as Ho. rewrite Hr in Ho. simpl in Ho.
      unfold clears. simpl.
      destruct Ho as [(Hs & Hf & Hf')|(Hs & Hf)]; rewrite Hs, ?Hf, ?Hf';
        destruct (_is_replanning a); simpl; lia.
Qed.

Lemma reachable_covered s : reachable s -> covered s.
Proof.
  intros [a Hsteps].
  assert (covered (initial a)) as Hinit by (unfold covered, clears; simpl; lia).
  revert Hinit. induction Hsteps as [|s1 s2 s3 Hstep _ IH]; [done|].
  intros H1. apply IH. by eapply step_covered.
Qed.

(** C2: while [_is_replanning] is set, a trigger returns at the first test
    and a refresh does not even call the check; of any number of triggers
    fired back to back every one returns, at most one is accepted, and
    those after it are rejected as already running; and in every reachable
    state of the application at most one worker is inside the re-plan,
    with the flag set while it is. *)
Theorem at_most_one_replan_running :
  (forall a e,
      _is_replanning a = true ->
      _check_and_replan a e = (a, Rejected AlreadyRunning))
  /\ (forall a skip e,
        _is_replanning a = true ->
        (refresh_events skip a e).2 = None
        /\ _is_replanning (refresh_events skip a e).1 = true)
  /\ (forall a es,
        length (run_triggers a es).2 = length es
        /\ (count_accepted (run_triggers a es).2 <= 1)%nat
        /\ forall i j reason o,
             (run_triggers a es).2 !! i = Some (Accepted reason) ->
             (i < j)%nat ->
             (run_triggers a es).2 !! j = Some o ->
             o = Rejected AlreadyRunning)
  /\ (forall s,
        reachable s ->
        (in_flight s <= 1)%nat
        /\ (in_flight s = 1%nat -> _is_replanning (sys_app s) = true)).
Proof.
  split; [exact check_running|]. split; [|split].
  - intros a skip e Hflag. unfold refresh_events.
    destruct (list_events e); [|done].
    destruct (render_ok e); [|done].
    simpl. rewrite Hflag, andb_false_r. done.
  - intros a es. split; [apply run_triggers_length|].
    split; [apply run_triggers_at_most_one|apply run_triggers_after_accepted].
  - intros s Hs%reachable_covered. unfold covered in Hs.
    destruct (_is_replanning (sys_app s)); split; done || lia.
Qed.

Lemma at_most_one_replan_running_witness :
  length (run_triggers sample_app (replicate 10 (sample_env 0 []))).2 = 10%nat
  /\ (count_accepted (run_triggers sample_app (replicate 10 (sample_env 0 []))).2
      <= 1)%nat.
Proof.
  destruct at_most_one_replan_running as (_ & _ & Hburst & _).
  destruct (Hburst sample_app (replicate 10 (sample_env 0 []))) as (Hlen & Hone & _).
  split; [exact Hlen|exact Hone].
Defined.

(** * The re-plan coordinator: the refresh after a re-plan *)

Lemma refresh_skip a e :
  (refresh_events true a e).2 = None
  /\ _is_replanning (refresh_events true a e).1 = _is_replanning a
  /\ _last_replan_time (refresh_events true a e).1 = _last_replan_time a.
Proof.
  unfold refresh_events.
  destruct (list_events e); [|done].
  destruct (render_ok e); [|done].
  by rewrite andb_false_r.
Qed.

Lemma replan_async_refresh r skip :
  RefreshEvents skip ∈ replan_async r -> skip = true.
Proof.
  destruct r; simpl; intros Hin;
    repeat (apply elem_of_cons in Hin as [Heq|Hin]; [congruence|]);
    by apply elem_of_nil in Hin.
Qed.

Lemma run_callbacks_replan_async ctx r a :
  _is_replanning (completed ctx r a) = false
  /\ _last_replan_time (completed ctx r a) = _last_replan_time a
  /\ Forall (fun o => o = None) (run_callbacks ctx (replan_async r) a).2.
Proof.
  unfold completed.
  destruct r; simpl; try (by repeat constructor).
  pose proof (refresh_skip (set_replanning false a) (ctx 2%nat)) as (Ho & Hflag & Hlast).
  destruct (refresh_events true (set_replanning false a) (ctx 2%nat)) as [a' o].
  simpl in *. subst o. by repeat constructor.
Qed.

(** C7: the only refresh the worker of a re-plan asks the UI thread for has
    [skip_replan] set; a refresh with [skip_replan] set does not call
    [_check_and_replan] and leaves the flag and the time of the last
    re-plan alone; so the callbacks of a completed re-plan start no
    re-plan. *)
Theorem replan_refresh_skips_check :
  (forall r skip, RefreshEvents skip ∈ replan_async r -> skip = true)
  /\ (forall calendar_tasks scheduler_tasks,
        RefreshEvents true ∈ replan_async (ReplanSuccess calendar_tasks scheduler_tasks))
  /\ (forall a e,
        (refresh_events true a e).2 = None
        /\ _is_replanning (refresh_events true a e).1 = _is_replanning a
        /\ _last_replan_time (refresh_events true a e).1 = _last_replan_time a)
  /\ (forall ctx r a,
        Forall (fun o => o = None) (run_callbacks ctx (replan_async r) a).2).
Proof.
  split; [exact replan_async_refresh|]. split; [|split].
  - intros c t. simpl. rewrite !elem_of_cons. by right; right; left.
  - exact refresh_skip.
  - intros ctx r a. apply run_callbacks_replan_async.
Qed.

(** * The re-plan coordinator: cooldown and nothing to re-plan *)

Lemma check_cooldown a e :
  _is_replanning a = false -> in_cooldown a e = true ->
  _check_and_replan a e = (a, Rejected Cooldown).
Proof. unfold _check_and_replan. by intros -> ->. Qed.

Lemma check_qualifying a e :
  _is_replanning a = false -> in_cooldown a e = false -> qualifying a e = true ->
  is_accepted (_check_and_replan a e).2 = true.
Proof.
  unfold _check_and_replan, qualifying. intros -> ->.
  destruct (analyze_capacity e) as [warnings|]; [|done].
  destruct (thread_start_ok e); [|done]. simpl.
  destruct (has_task_events (events a)); simpl.
  - by rewrite orb_true_r.
  - intros [-> ->]%andb_prop. done.
Qed.

Lemma in_cooldown_with_capacity c a e : in_cooldown a (with_capacity c e) = in_cooldown a e.
Proof. done. Qed.

(** C5: with [_last_replan_time] set and less than five seconds before now,
    a trigger changes nothing and is not accepted, and when no re-plan is
    running it is rejected for the cooldown whatever the capacity analysis
    would say; after an accepted trigger whose worker has completed, a
    qualifying trigger one second after the first is rejected for the
    cooldown, and six seconds after the first it is accepted. *)
Theorem cooldown_is_unconditional :
  (forall a e last,
      _last_replan_time a = Some last ->
      now e - last < _replan_cooldown * 1000000 ->
      (_check_and_replan a e).1 = a
      /\ is_accepted (_check_and_replan a e).2 = false
      /\ (_is_replanning a = false ->
          forall c, _check_and_replan a (with_capacity c e) = (a, Rejected Cooldown)))
  /\ (forall a e1 e2 reason r ctx,
        (_check_and_replan a e1).2 = Accepted reason ->
        qualifying (completed ctx r (_check_and_replan a e1).1) e2 = true ->
        (now e2 = now e1 + 1000000 ->
         (_check_and_replan (completed ctx r (_check_and_replan a e1).1) e2).2
         = Rejected Cooldown)
        /\ (now e2 = now e1 + 6000000 ->
            is_accepted
              (_check_and_replan (completed ctx r (_check_and_replan a e1).1) e2).2
            = true)).
Proof.
  split.
  - intros a e last Hlast Hsoon.
    assert (in_cooldown a e = true) as Hcool.
    { unfold in_cooldown. rewrite Hlast. by apply bool_decide_eq_true. }
    destruct (_is_replanning a) eqn:Hflag.
    + rewrite (check_running a e Hflag). by repeat split.
    + rewrite (check_cooldown a e Hflag Hcool). repeat split.
      intros _ c. by apply check_cooldown.
  - intros a e1 e2 reason r ctx Hacc Hq.
    pose proof (check_outcome a e1) as [H1 _]. rewrite Hacc in H1.
    destruct H1 as (_ & _ & Hlast).
    pose proof (run_callbacks_replan_async ctx r (_check_and_replan a e1).1)
      as (Hflag & Hkeep & _).
    rewrite Hlast in Hkeep.
    split; intros Hnow.
    + rewrite check_cooldown; [done|done|].
      unfold in_cooldown. rewrite Hkeep. apply bool_decide_eq_true.
      unfold _replan_cooldown. lia.
    + apply check_qualifying; [done| |done].
      unfold in_cooldown. rewrite Hkeep. apply bool_decide_eq_false.
      unfold _replan_cooldown. lia.
Qed.

Lemma cooldown_is_unconditional_witness :
  (_check_and_replan
     (completed (fun _ => sample_env 500000 []) ReplanNoTasks
        (_check_and_replan sample_app (sample_env 0 [])).1)
     (sample_env 1000000 [Warning "critical"])).2 = Rejected Cooldown
  /\ is_accepted
       (_check_and_replan
          (completed (fun _ => sample_env 500000 []) ReplanNoTasks
             (_check_and_replan sample_app (sample_env 0 [])).1)
          (sample_env 6000000 [Warning "critical"])).2 = true.
Proof.
  destruct cooldown_is_unconditional as [_ Htwo].
  split.
  - apply (Htwo sample_app (sample_env 0 []) (sample_env 1000000 [Warning "critical"])
             "Schedule change - shuffling tasks" ReplanNoTasks
             (fun _ => sample_env 500000 [])); reflexivity.
  - apply (Htwo sample_app (sample_env 0 []) (sample_env 6000000 [Warning "critical"])
             "Schedule change - shuffling tasks" ReplanNoTasks
             (fun _ => sample_env 500000 [])); reflexivity.
Defined.

(** C6: without a tagged event in the calendar and without a scheduled
    task, a trigger changes nothing and is not accepted, the answer of the
    capacity analysis has no part in the outcome, and when no re-plan is
    running and no cooldown holds the trigger is rejected as having nothing
    to re-plan, critical warnings or not. *)
Theorem nothing_to_replan a e :
  has_task_events (events a) = false ->
  has_scheduled_tasks (tasks e) = false ->
  (_check_and_replan a e).1 = a
  /\ is_accepted (_check_and_replan a e).2 = false
  /\ (forall c, _check_and_replan a (with_capacity c e) = _check_and_replan a e)
  /\ (_is_replanning a = false -> in_cooldown a e = false ->
      forall c, _check_and_replan a (with_capacity c e) = (a, Rejected NothingToReplan)).
Proof.
  intros Htask Hsched.
  assert (forall c, _check_and_replan a (with_capacity c e)
                    = (a, Rejected (if _is_replanning a then AlreadyRunning
                                    else if in_cooldown a e then Cooldown
                                    else NothingToReplan))) as Hany.
  { intros c. unfold _check_and_replan. rewrite in_cooldown_with_capacity.
    destruct (_is_replanning a); [done|].
    destruct (in_cooldown a e); [done|].
    simpl. by rewrite Htask, Hsched. }
  assert (_check_and_replan a e = _check_and_replan a (with_capacity (analyze_capacity e) e))
    as Hself by (by destruct e).
  rewrite Hself, !Hany. repeat split.
  - intros c. by rewrite Hany.
  - intros Hflag Hcool c. by rewrite Hany, Hflag, Hcool.
Qed.

Lemma nothing_to_replan_witness :
  _check_and_replan untagged_app
    (with_capacity (Some [Warning "critical"]) (sample_env 0 []))
  = (untagged_app, Rejected NothingToReplan).
Proof.
  apply (nothing_to_replan untagged_app (sample_env 0 []));
    reflexivity.
Defined.

(** * The re-plan coordinator: what completion records *)

(** C4, as the code has it: when the worker of an accepted re-plan
    completes, with a success, with nothing done, with another status or
    with an exception, the callbacks it leaves clear [_is_replanning]; the
    time of the last re-plan stays the time of the dispatch, recorded when
    the trigger was accepted, and the cooldown runs from it, also after a
    failed attempt. *)
Theorem completion_releases_flag a e reason r ctx :
  (_check_and_replan a e).2 = Accepted reason ->
  _is_replanning (_check_and_replan a e).1 = true
  /\ _last_replan_time (_check_and_replan a e).1 = Some (now e)
  /\ _is_replanning (completed ctx r (_check_and_replan a e).1) = false
  /\ _last_replan_time (completed ctx r (_check_and_replan a e).1) = Some (now e)
  /\ (forall e',
        now e' - now e < _replan_cooldown * 1000000 ->
        _check_and_replan (completed ctx r (_check_and_replan a e).1) e'
        = (completed ctx r (_check_and_replan a e).1, Rejected Cooldown)).
Proof.
  intros Hacc.
  pose proof (check_outcome a e) as [H1 _]. rewrite Hacc in H1.
  destruct H1 as (_ & Hrun & Hlast).
  pose proof (run_callbacks_replan_async ctx r (_check_and_replan a e).1)
    as (Hflag & Hkeep & _).
  rewrite Hlast in Hkeep. repeat split; try done.
  intros e' Hsoon. apply check_cooldown; [done|].
  unfold in_cooldown. rewrite Hkeep. by apply bool_decide_eq_true.
Qed.

Lemma completion_releases_flag_witness :
  _is_replanning
    (completed (fun _ => sample_env 3000000 []) ReplanRaised
       (_check_and_replan sample_app (sample_env 0 [])).1) = false
  /\ _last_replan_time
       (completed (fun _ => sample_env 3000000 []) ReplanRaised
          (_check_and_replan sample_app (sample_env 0 [])).1) = Some 0.
Proof.
  destruct (completion_releases_flag sample_app (sample_env 0 [])
              "Schedule change - shuffling tasks" ReplanRaised
              (fun _ => sample_env 3000000 []) eq_refl)
    as (_ & _ & Hflag & Hlast & _).
  split; [exact Hflag|exact Hlast].
Defined.

(** A re-plan dispatched at instant 0 whose worker fails, the callbacks
    running three seconds later: the flag is cleared, and the recorded time
    is still 0, not the instant of the completion; a trigger six seconds
    after the dispatch, three after the completion, is accepted. *)
Lemma completion_time_not_recorded :
  now (sample_env 3000000 []) = 3000000
  /\ _is_replanning
       (completed (fun _ => sample_env 3000000 []) ReplanRaised
          (_check_and_replan sample_app (sample_env 0 [])).1) = false
  /\ _last_replan_time
       (completed (fun _ => sample_env 3000000 []) ReplanRaised
          (_check_and_replan sample_app (sample_env 0 [])).1) <> Some 3000000
  /\ is_accepted
       (_check_and_replan
          (completed (fun _ => sample_env 3000000 []) ReplanRaised
             (_check_and_replan sample_app (sample_env 0 [])).1)
          (sample_env 6000000 [])).2 = true.
Proof. repeat split. discriminate. Qed.



(** * Week navigation *)

Lemma weekday_range d : 0 <= weekday d < 7.
Proof. unfold weekday. apply Z.mod_pos_bound. lia. Qed.

Lemma weekday_monday_offset m i :
  weekday m = 0 -> 0 <= i < 7 -> weekday (m + i) = i.
Proof.
  unfold weekday. intros Hm Hi.
  replace (m + i + 6) with (i + (m + 6)) by lia.
  rewrite Z.add_mod, Hm, Z.add_0_r, Z.mod_mod by lia.
  apply Z.mod_small. lia.
Qed.

Lemma init_week_monday today : weekday (week_start (init_week today)) = 0.
Proof.
  unfold init_week, weekday. simpl.
  pose proof (Z.div_mod (today + 6) 7) as Hdiv.
  replace (today - (today + 6) mod 7 + 6) with (((today + 6) / 7) * 7) by lia.
  apply Z.mod_mul. lia.
Qed.

Lemma navigate_monday v n :
  weekday (week_start v) = 0 -> weekday (week_start (navigate v n)) = 0.
Proof.
  destruct n as [| |today]; simpl; [| |intros _; apply init_week_monday];
    unfold weekday; intros Hv.
  - replace (week_start v - 7 + 6) with (week_start v + 6 + (-1) * 7) by lia.
    by rewrite Z.mod_add by lia.
  - replace (week_start v + 7 + 6) with (week_start v + 6 + 1 * 7) by lia.
    by rewrite Z.mod_add by lia.
Qed.

(** X1: whatever the buttons pressed after start-up, the week shown starts
    on a Monday and its seven columns are Monday to Sunday; after "today"
    the current date lies in the week shown; "previous" and "next" undo each
    other. *)
Theorem week_starts_on_monday :
  (forall today navs,
      weekday (week_start (foldl navigate (init_week today) navs)) = 0
      /\ weekday <$> week_days (foldl navigate (init_week today) navs)
         = [0; 1; 2; 3; 4; 5; 6])
  /\ (forall today v,
        week_start (go_today today v) <= today_date (go_today today v)
        <= week_start (go_today today v) + 6)
  /\ (forall v, prev_week (next_week v) = v /\ next_week (prev_week v) = v).
Proof.
  split; [|split].
  - intros today navs.
    assert (weekday (week_start (foldl navigate (init_week today) navs)) = 0) as Hmon.
    { induction navs as [|n navs IH] using rev_ind; [apply init_week_monday|].
      rewrite foldl_snoc. by apply navigate_monday. }
    split; [done|]. unfold week_days. simpl.
    rewrite Z.add_0_r, Hmon.
    by rewrite !(weekday_monday_offset _ _ Hmon) by lia.
  - intros today v. unfold go_today, init_week. simpl.
    pose proof (weekday_range today). lia.
  - intros [t w]. unfold prev_week, next_week. simpl. split; f_equal; lia.
Qed.

(** * Event colours *)

(** X2: every event gets one of the ten colours of the palette: the index
    computed from its id is always in range, also for an empty or missing
    id, which gets the first colour. *)
Theorem event_color_in_palette :
  (forall ev, exists c, _get_event_color ev = Some c /\ c ∈ EVENT_COLORS)
  /\ (forall ev, ev_id ev = EmptyString -> _get_event_color ev = Some "#039BE5"%string).
Proof.
  split.
  - intros ev. unfold _get_event_color.
    destruct (lookup_lt_is_Some_2 EVENT_COLORS
                (ord_sum (ev_id ev) mod length EVENT_COLORS)%nat) as [c Hc].
    { apply Nat.mod_upper_bound. simpl. lia. }
    exists c. split; [done|]. by eapply list_elem_of_lookup_2.
  - intros ev Hid. unfold _get_event_color. by rewrite Hid.
Qed.

(** * The updater *)

Lemma first_update_asset_none l :
  Forall (fun a => asset_name a <> Some update_asset_name) l ->
  first_update_asset l = None.
Proof.
  induction 1 as [|a l Ha _ IH]; [done|].
  simpl. by rewrite bool_decide_false.
Qed.

Lemma first_update_asset_first pre a post :
  Forall (fun b => asset_name b <> Some update_asset_name) pre ->
  asset_name a = Some update_asset_name ->
  first_update_asset (pre ++ a :: post) = Some (browser_download_url a).
Proof.
  intros Hpre Ha. induction Hpre as [|b pre Hb _ IH]; simpl.
  - by rewrite bool_decide_true.
  - by rewrite bool_decide_false.
Qed.

(** X3: the download is the first asset named apollo-frontend-update.zip:
    its URL is returned whatever follows it, also when that asset has no
    URL (the result is then [None], not the zipball); the zipball URL of
    the release is returned exactly when no asset has that name. *)
Theorem download_url_first_asset :
  (forall r pre a post,
      assets r = pre ++ a :: post ->
      Forall (fun b => asset_name b <> Some update_asset_name) pre ->
      asset_name a = Some update_asset_name ->
      _get_download_url r = browser_download_url a)
  /\ (forall r,
        Forall (fun b => asset_name b <> Some update_asset_name) (assets r) ->
        _get_download_url r = zipball_url r).
Proof.
  split.
  - intros r pre a post Hr Hpre Ha. unfold _get_download_url.
    by rewrite Hr, (first_update_asset_first pre a post Hpre Ha).
  - intros r Hr. unfold _get_download_url. by rewrite first_update_asset_none.
Qed.

Lemma download_url_first_asset_witness :
  _get_download_url
    {| tag_name := Some "v1.0.3"%string;
       assets := [Asset (Some "notes.txt"%string) (Some "https://x/notes"%string);
                  Asset (Some update_asset_name) None;
                  Asset (Some update_asset_name) (Some "https://x/second"%string)];
       zipball_url := Some "https://x/zipball"%string;
       body := None; published_at := None |} = None.
Proof.
  destruct download_url_first_asset as [Hfirst _].
  apply (Hfirst _ [Asset (Some "notes.txt"%string) (Some "https://x/notes"%string)]
           (Asset (Some update_asset_name) None)
           [Asset (Some update_asset_name) (Some "https://x/second"%string)]);
    [reflexivity | by repeat constructor | reflexivity].
Defined.

Lemma lstrip_v_cons c s :
  lstrip_v (String c s)
  = if String.eqb (String c EmptyString) "v" then lstrip_v s else String c s.
Proof. reflexivity. Qed.

Lemma lstrip_v_spec s :
  (exists k, s = v_prefix k (lstrip_v s))
  /\ (forall rest, lstrip_v s <> String.append "v" rest).
Proof.
  induction s as [|c s [[k Hk] Hno]].
  - split; [by exists O|]. by intros rest.
  - rewrite lstrip_v_cons.
    destruct (String.eqb (String c EmptyString) "v") eqn:Hc.
    + apply String.eqb_eq in Hc. injection Hc as ->.
      split; [|done]. exists (S k). simpl. by rewrite <-Hk.
    + split; [by exists O|]. intros rest Heq. simpl in Heq.
      injection Heq as -> _. by rewrite String.eqb_refl in Hc.
Qed.

(** X4: an update is offered only for a release fetched with status 200
    whose tag, without its leading v's, is not empty and is newer than the
    current version; the version offered never starts with v, and its
    download URL is the one [_get_download_url] gives for that release.  A
    failed request, another status, a body that is not JSON, a tag made of
    v's only, and a version that is not newer or does not parse all give
    no update. *)
Theorem check_for_updates_sound version_newer resp info :
  check_for_updates version_newer resp = Some info ->
  exists release_data k,
    resp = HttpResponse 200 (Some release_data)
    /\ default EmptyString (tag_name release_data) = v_prefix k (version info)
    /\ version info <> EmptyString
    /\ (forall rest, version info <> String.append "v" rest)
    /\ version_newer (version info) CURRENT_VERSION = Some true
    /\ download_url info = _get_download_url release_data.
Proof.
  unfold check_for_updates. intros Hcheck.
  destruct resp as [|status [release_data|]]; try done;
    case_bool_decide as Hstatus; try done.
  case_bool_decide as Hempty; [done|].
  destruct (version_newer _ CURRENT_VERSION) as [[]|] eqn:Hnewer; try done.
  injection Hcheck as <-. simpl.
  destruct (lstrip_v_spec (default EmptyString (tag_name release_data)))
    as [[k Hk] Hno].
  exists release_data, k. repeat split; try done.
  f_equal. lia.
Qed.

Lemma check_for_updates_sound_witness :
  exists release_data k,
    HttpResponse 200
      (Some {| tag_name := Some "vv1.0.3"%string; assets := [];
               zipball_url := Some "https://x/zipball"%string;
               body := None; published_at := None |})
    = HttpResponse 200 (Some release_data)
    /\ default EmptyString (tag_name release_data) = v_prefix k "1.0.3"
    /\ "1.0.3"%string <> EmptyString
    /\ (forall rest, "1.0.3"%string <> String.append "v" rest)
    /\ sample_newer "1.0.3" CURRENT_VERSION = Some true
    /\ Some "https://x/zipball"%string = _get_download_url release_data.
Proof.
  exact (check_for_updates_sound sample_newer
           (HttpResponse 200
              (Some {| tag_name := Some "vv1.0.3"%string; assets := [];
                       zipball_url := Some "https://x/zipball"%string;
                       body := None; published_at := None |}))
           {| version := "1.0.3"; download_url := Some "https://x/zipball"%string;
              release_notes := ""; info_published_at := "" |}
           eq_refl).
Defined.

Ltac in_trace H :=
  repeat (apply elem_of_cons in H as [H|H]; [try done|]);
  try (by apply elem_of_nil in H).

Ltac run_update_cases vn u :=
  unfold run_update;
  destruct (check_for_updates vn (response u)) as [info|] eqn:Hfound; simpl;
    [try match goal with
         | |- context [String.eqb ?a ?b] => destruct (String.eqb a b) eqn:Hanswer
         end;
     destruct (backup_ok u) eqn:Hbackup, (download_ok u) eqn:Hdownload,
       (apply_ok u) eqn:Happly; simpl|].

Lemma run_update_nothing_found vn auto u :
  check_for_updates vn (response u) = None -> run_update vn auto u = [RequestLatest].
Proof. unfold run_update. by intros ->. Qed.

Lemma run_update_request_first vn auto u i :
  run_update vn auto u !! i = Some RequestLatest <-> i = 0%nat.
Proof.
  split; [|by intros ->].
  destruct auto; run_update_cases vn u; intros H;
    by destruct i as [|[|[|[|[|[|i]]]]]].
Qed.

Lemma run_update_declined vn u a :
  answer u <> "y"%string -> a ∈ run_update vn false u ->
  a = RequestLatest \/ a = AskUser.
Proof.
  intros Hno. apply String.eqb_neq in Hno.
  unfold run_update. rewrite Hno.
  destruct (check_for_updates vn (response u)); simpl; intros H; in_trace H; auto.
Qed.

Lemma run_update_auto_silent vn u : AskUser ∉ run_update vn true u.
Proof.
  run_update_cases vn u; intros H; in_trace H.
Qed.

Ltac at_index i H :=
  destruct i as [|[|[|[|[|[|[|i]]]]]]]; simpl in H; try done.

Lemma run_update_download_after_backup vn auto u i url :
  run_update vn auto u !! i = Some (Download url) ->
  backup_ok u = true
  /\ exists j, (j < i)%nat /\ run_update vn auto u !! j = Some Backup.
Proof.
  destruct auto; run_update_cases vn u; intros H; at_index i H;
    (split; [done|]);
    first [ by exists 1%nat; split; [lia|] | by exists 2%nat; split; [lia|] ].
Qed.

Lemma run_update_apply_after_download vn auto u i :
  run_update vn auto u !! i = Some Apply ->
  backup_ok u = true /\ download_ok u = true
  /\ exists j url, (j < i)%nat /\ run_update vn auto u !! j = Some (Download url).
Proof.
  destruct auto; run_update_cases vn u; intros H; at_index i H;
    (split; [done|]); (split; [done|]);
    first [ by eexists 2%nat, _; split; [lia|]
          | by eexists 3%nat, _; split; [lia|] ].
Qed.

Lemma run_update_restore vn auto u :
  Restore ∈ run_update vn auto u <->
  Apply ∈ run_update vn auto u /\ apply_ok u = false.
Proof.
  destruct auto; run_update_cases vn u;
    (split; [intros H; in_trace H|intros [H Hno]; try done; in_trace H]);
    try (split; [|done]); rewrite ?elem_of_cons; auto 10.
Qed.

Lemma run_update_version vn auto u v :
  UpdateVersion v ∈ run_update vn auto u <->
  Apply ∈ run_update vn auto u /\ apply_ok u = true
  /\ exists info, check_for_updates vn (response u) = Some info /\ v = version info.
Proof.
  destruct auto; run_update_cases vn u;
    (split; [intros H; in_trace H
            |intros (H & Hok & info' & Hinfo & ->); try done; in_trace H]);
    simplify_eq;
    try (split; [|split; [done|by eexists]]);
    rewrite ?elem_of_cons; auto 10.
Qed.

(** X5: [run_update] begins with the request of [check_for_updates] and
    sends it once; when that finds no update the request is all it does,
    and when the user does not answer y only the question follows it;
    it never downloads without a backup made, never applies an update
    without a backup and a download, in that order; restores the backup
    exactly when the application of the update failed; rewrites the
    version exactly when it succeeded, to the version found; and asks
    nothing in automatic mode. *)
Theorem run_update_order version_newer auto u :
  (forall i, run_update version_newer auto u !! i = Some RequestLatest <-> i = 0%nat)
  /\ (check_for_updates version_newer (response u) = None ->
      run_update version_newer auto u = [RequestLatest])
  /\ (auto = false -> answer u <> "y"%string ->
      forall a, a ∈ run_update version_newer auto u -> a = RequestLatest \/ a = AskUser)
  /\ (auto = true -> AskUser ∉ run_update version_newer auto u)
  /\ (forall i url,
        run_update version_newer auto u !! i = Some (Download url) ->
        backup_ok u = true
        /\ exists j, (j < i)%nat /\ run_update version_newer auto u !! j = Some Backup)
  /\ (forall i,
        run_update version_newer auto u !! i = Some Apply ->
        backup_ok u = true /\ download_ok u = true
        /\ exists j url,
             (j < i)%nat /\ run_update version_newer auto u !! j = Some (Download url))
  /\ (Restore ∈ run_update version_newer auto u <->
      Apply ∈ run_update version_newer auto u /\ apply_ok u = false)
  /\ (forall v,
        UpdateVersion v ∈ run_update version_newer auto u <->
        Apply ∈ run_update version_newer auto u /\ apply_ok u = true
        /\ exists info,
             check_for_updates version_newer (response u) = Some info
             /\ v = version info).
Proof.
  split; [apply run_update_request_first|].
  split; [apply run_update_nothing_found|].
  split; [intros -> Hno a; by apply run_update_declined|].
  split; [intros ->; apply run_update_auto_silent|].
  split; [apply run_update_download_after_backup|].
  split; [apply run_update_apply_after_download|].
  split; [apply run_update_restore|apply run_update_version].
Qed.

(** * Drawing the week *)

Section RenderFacts.

Context (parse : string -> option instant) (local_date : instant -> Z)
        (parse_date : string -> option Z).

Lemma day_index_Some v d i :
  day_index v d = Some i <-> (i < 7)%nat /\ d = week_start v + Z.of_nat i.
Proof.
  unfold day_index. case_bool_decide as Hd.
  - split; [intros [= <-]; lia|]. intros [? ->]. f_equal. lia.
  - split; [done|]. intros [? ->]. lia.
Qed.

Lemma classify_bound v ev s :
  classify parse local_date parse_date v ev = Some s ->
  match s with AllDay i | Timed i => (i < 7)%nat end.
Proof.
  unfold classify. destruct (negb _); [done|].
  destruct (py_or _ _) as [iso|]; [|done].
  case_bool_decide.
  - destruct (parse_date iso) as [d|]; [|done]. simpl.
    destruct (day_index v d) as [i|] eqn:Hi; [|done].
    intros [= <-]. by apply day_index_Some in Hi as [? _].
  - destruct (parse iso) as [dt|]; [|done]. simpl.
    destruct (day_index v (local_date dt)) as [i|] eqn:Hi; [|done].
    intros [= <-]. by apply day_index_Some in Hi as [? _].
Qed.

(** Appending to one bucket of seven. *)
Lemma alter_bucket (P : nat -> event -> Prop) `{!forall i ev, Decision (P i ev)}
    evs ev i :
  (i < 7)%nat -> P i ev -> (forall j, j <> i -> ~ P j ev) ->
  alter (fun items => items ++ [ev]) i ((fun j => filter (P j) evs) <$> seq 0 7)
  = (fun j => filter (P j) (evs ++ [ev])) <$> seq 0 7.
Proof.
  intros Hi HP HnP. apply list_eq. intros j.
  destruct (decide (j = i)) as [->|Hj].
  - rewrite list_lookup_alter_eq, !list_lookup_fmap, lookup_seq_lt by done. simpl.
    by rewrite filter_app, filter_cons, decide_True by done.
  - rewrite list_lookup_alter_ne, !list_lookup_fmap by done.
    destruct (seq 0 7 !! j) as [j'|] eqn:Hseq; [|done]. simpl.
    apply lookup_seq in Hseq as [-> _]. simpl.
    rewrite filter_app, filter_cons, decide_False by (by apply HnP).
    by rewrite filter_nil, app_nil_r.
Qed.

Lemma keep_buckets (P : nat -> event -> Prop) `{!forall i ev, Decision (P i ev)}
    evs ev :
  (forall j, ~ P j ev) ->
  (fun j => filter (P j) evs) <$> seq 0 7
  = (fun j => filter (P j) (evs ++ [ev])) <$> seq 0 7.
Proof.
  intros HnP. apply list_fmap_ext. intros _ j _.
  rewrite filter_app, filter_cons, decide_False by apply HnP.
  by rewrite filter_nil, app_nil_r.
Qed.

(** The grouping loop sorts the events of the week into their days, in
    the order of the list. *)
Lemma group_events_spec v evs :
  group_events parse local_date parse_date v evs
  = ((fun i => timed_of_day parse local_date parse_date v i evs) <$> seq 0 7,
     (fun i => all_day_of_day parse local_date parse_date v i evs) <$> seq 0 7).
Proof.
  unfold group_events, timed_of_day, all_day_of_day.
  induction evs as [|ev evs IH] using rev_ind; [done|].
  rewrite foldl_snoc, IH. unfold group_step.
  destruct (classify parse local_date parse_date v ev) as [[i|i]|] eqn:Hc;
    cbn [fst snd].
  - pose proof (classify_bound _ _ _ Hc) as Hi. simpl in Hi. f_equal.
    + apply (keep_buckets (fun j ev => classify parse local_date parse_date v ev = Some (Timed j))).
      intros j. by rewrite Hc.
    + apply (alter_bucket (fun j ev => classify parse local_date parse_date v ev = Some (AllDay j)));
        [done|done|]. intros j Hj. rewrite Hc. congruence.
  - pose proof (classify_bound _ _ _ Hc) as Hi. simpl in Hi. f_equal.
    + apply (alter_bucket (fun j ev => classify parse local_date parse_date v ev = Some (Timed j)));
        [done|done|]. intros j Hj. rewrite Hc. congruence.
    + apply (keep_buckets (fun j ev => classify parse local_date parse_date v ev = Some (AllDay j))).
      intros j. by rewrite Hc.
  - f_equal.
    + apply (keep_buckets (fun j ev => classify parse local_date parse_date v ev = Some (Timed j))).
      intros j. by rewrite Hc.
    + apply (keep_buckets (fun j ev => classify parse local_date parse_date v ev = Some (AllDay j))).
      intros j. by rewrite Hc.
Qed.

Lemma elem_of_week_loop {A B} (f : nat -> A -> list B) (g : nat -> A) x :
  x ∈ mjoin (imap f (g <$> seq 0 7)) <-> exists i, (i < 7)%nat /\ x ∈ f i (g i).
Proof.
  rewrite list_elem_of_join. split.
  - intros (l & Hx & (i & a & -> & Hi)%elem_of_lookup_imap).
    rewrite list_lookup_fmap in Hi.
    destruct (seq 0 7 !! i) as [j|] eqn:Hseq; [|done].
    apply lookup_seq in Hseq as [-> ?]. injection Hi as <-. by exists i.
  - intros (i & Hi & Hx). exists (f i (g i)). split; [done|].
    apply elem_of_lookup_imap. exists i, (g i). split; [done|].
    by rewrite list_lookup_fmap, lookup_seq_lt.
Qed.

Lemma draw_calls_timed v evs i ev lane n :
  DrawTimed i ev lane n ∈ draw_calls parse local_date parse_date v evs <->
  (i < 7)%nat
  /\ (ev, lane, n) ∈ _compute_lanes parse (timed_of_day parse local_date parse_date v i evs).
Proof.
  unfold draw_calls. rewrite group_events_spec, elem_of_app, !elem_of_week_loop.
  split.
  - intros [(j & _ & (k & e & [=] & _)%elem_of_lookup_imap)|(j & Hj & Hin)].
    destruct (timed_of_day parse local_date parse_date v j evs) as [|e l] eqn:Hl;
      [by apply elem_of_nil in Hin|].
    apply list_elem_of_fmap in Hin as ([[ev' lane'] n'] & [= -> -> -> ->] & Hin).
    by rewrite Hl.
  - intros [Hi Hin]. right. exists i. split; [done|].
    destruct (timed_of_day parse local_date parse_date v i evs) as [|e l] eqn:Hl;
      [by apply elem_of_nil in Hin|].
    apply list_elem_of_fmap. by exists (ev, lane, n).
Qed.

Lemma draw_calls_all_day v evs i ev k :
  DrawAllDay i ev k ∈ draw_calls parse local_date parse_date v evs <->
  (i < 7)%nat /\ all_day_of_day parse local_date parse_date v i evs !! k = Some ev.
Proof.
  unfold draw_calls. rewrite group_events_spec, elem_of_app, !elem_of_week_loop.
  split.
  - intros [(j & Hj & (k' & e & [= -> -> ->] & Hk)%elem_of_lookup_imap)|(j & _ & Hin)]; [done|].
    destruct (timed_of_day parse local_date parse_date v j evs) as [|e l];
      [by apply elem_of_nil in Hin|].
    by apply list_elem_of_fmap in Hin as ([[ev' lane'] n'] & [=] & _).
  - intros [Hi Hk]. left. exists i. split; [done|].
    apply elem_of_lookup_imap. by exists k, ev.
Qed.

(** An event whose start and end [dateTime] parse is grouped by its
    start [dateTime]. *)
Lemma parse_item_start ev it :
  parse_item parse ev = Some it ->
  exists iso,
    py_or (get_dateTime (start ev)) (get_date (start ev)) = Some iso
    /\ get_dateTime (start ev) = Some iso
    /\ iso <> EmptyString
    /\ parse iso = Some (item_start it).
Proof.
  unfold parse_item, py_or. intros Hp.
  destruct (get_dateTime (start ev)) as [s|]; [|done].
  destruct (truthy (Some s)) eqn:Hs; [|done].
  destruct (get_dateTime (end_ ev)) as [e|]; [|done].
  destruct (truthy (Some e)); [|done]. simpl in Hp.
  destruct (parse s) as [ps|] eqn:Hps; [|done].
  destruct (parse e) as [pe|]; [|done]. injection Hp as <-.
  exists s. repeat split; [|done]. by intros ->.
Qed.

Lemma classify_timed v ev i :
  classify parse local_date parse_date v ev = Some (Timed i) <->
  exists iso dt,
    py_or (get_dateTime (start ev)) (get_date (start ev)) = Some iso
    /\ iso <> EmptyString
    /\ (10 < String.length iso)%nat
    /\ parse iso = Some dt
    /\ (i < 7)%nat
    /\ local_date dt = week_start v + Z.of_nat i.
Proof.
  unfold classify.
  destruct (py_or _ _) as [iso|]; [|split; [done|by intros (? & ? & [=] & _)]].
  destruct (truthy (Some iso)) eqn:Ht; simpl.
  2:{ split; [done|]. intros (? & ? & [= <-] & Hne & _). by destruct iso. }
  case_bool_decide as Hlen.
  - split; [|intros (? & ? & [= <-] & _ & ? & _); lia].
    destruct (parse_date iso); [|done]. simpl. by destruct (day_index _ _).
  - destruct (parse iso) as [dt|] eqn:Hdt;
      [|split; [done|intros (? & ? & [= <-] & _ & _ & ? & _); congruence]].
    simpl. split.
    + destruct (day_index v (local_date dt)) as [j|] eqn:Hj; [|done].
      intros [= ->]. apply day_index_Some in Hj as [? ?].
      exists iso, dt. repeat split; try done; [by intros ->|lia].
    + intros (? & dt' & [= <-] & _ & _ & Hdt' & Hi & Hd).
      assert (dt' = dt) as -> by congruence.
      by rewrite (proj2 (day_index_Some v (local_date dt) i)).
Qed.

End RenderFacts.

(** X6: [_render] draws a timed event exactly when it is an event of the
    list whose start lies in the displayed week and whose start and end
    [dateTime] both parse; it draws it in the column of the local date of
    its start and in no other column,
    with the lane [_compute_lanes] gives it among the events of that day
    alone; an all-day event is drawn in the column of its date, at the
    offset it has among the all-day events of that day. *)
Theorem render_draws_week_events parse local_date parse_date v evs :
  let calls := draw_calls parse local_date parse_date v evs in
  let day i := timed_of_day parse local_date parse_date v i evs in
  (forall i ev lane n,
     DrawTimed i ev lane n ∈ calls <->
     (i < 7)%nat /\ (ev, lane, n) ∈ _compute_lanes parse (day i))
  /\ (forall i ev lane n,
        DrawTimed i ev lane n ∈ calls ->
        ev ∈ evs /\ (i < 7)%nat /\ (lane < n)%nat
        /\ n = lanes_opened parse (day i)
        /\ exists iso s e,
             get_dateTime (start ev) = Some iso
             /\ parse_item parse ev = Some (ev, s, e)
             /\ parse iso = Some s
             /\ local_date s = week_start v + Z.of_nat i)
  /\ (forall i ev,
        ev ∈ evs ->
        classify parse local_date parse_date v ev = Some (Timed i) ->
        is_Some (parse_item parse ev) ->
        exists lane, DrawTimed i ev lane (lanes_opened parse (day i)) ∈ calls)
  /\ (forall i j ev lane lane' n n',
        DrawTimed i ev lane n ∈ calls -> DrawTimed j ev lane' n' ∈ calls -> i = j)
  /\ (forall i ev k,
        DrawAllDay i ev k ∈ calls <->
        (i < 7)%nat
        /\ all_day_of_day parse local_date parse_date v i evs !! k = Some ev).
Proof.
  intros calls day. subst calls day.
  assert (forall i ev lane n,
            DrawTimed i ev lane n ∈ draw_calls parse local_date parse_date v evs ->
            ev ∈ evs
            /\ classify parse local_date parse_date v ev = Some (Timed i)
            /\ is_Some (parse_item parse ev)) as Hsound.
  { intros i ev lane n [Hi Hin]%draw_calls_timed.
    apply compute_lanes_elem in Hin as (Hev & Hp & _).
    apply list_elem_of_filter in Hev as [Hc Hev]. done. }
  split; [apply draw_calls_timed|]. split; [|split; [|split]].
  - intros i ev lane n Hcall.
    destruct (Hsound _ _ _ _ Hcall) as (Hev & Hc & [it Hit]).
    apply draw_calls_timed in Hcall as [Hi Hin].
    apply compute_lanes_elem in Hin as (_ & _ & Hlane & Hn).
    do 4 (split; [done|]).
    destruct (parse_item_start _ _ _ Hit) as (iso & Hor & Hiso & _ & Hps).
    apply classify_timed in Hc as (iso' & dt & Hor' & _ & _ & Hdt & _ & Hd).
    assert (iso' = iso) as -> by congruence.
    assert (dt = item_start it) as -> by congruence.
    pose proof (parse_item_event _ _ _ Hit) as Hevit.
    destruct it as [[ev' s] e]. unfold item_event, item_start in *.
    simpl in *. subst ev'. by exists iso, s, e.
  - intros i ev Hev Hc Hp.
    pose proof (classify_bound _ _ _ _ _ _ Hc) as Hi. simpl in Hi.
    destruct (compute_lanes_covers parse
                (timed_of_day parse local_date parse_date v i evs) ev) as [lane Hl];
      [by apply list_elem_of_filter|done|].
    exists lane. by apply draw_calls_timed.
  - intros i j ev lane lane' n n' Hi Hj.
    destruct (Hsound _ _ _ _ Hi) as (_ & Hci & _).
    destruct (Hsound _ _ _ _ Hj) as (_ & Hcj & _). congruence.
  - apply draw_calls_all_day.
Qed.

Section RenderBoxes.

Context (parse : string -> option instant) (local_date : instant -> Z)
        (parse_date : string -> option Z)
        (all_day_box : nat -> nat -> bbox)
        (timed_box : nat -> instant -> instant -> nat -> nat -> bbox).

Lemma draw_timed_parse_item i ev lane n it :
  parse_item parse ev = Some it ->
  _draw_timed_event parse timed_box i ev lane n
  = Some [(timed_box i (item_start it) (item_end it) lane n, ev_id ev)].
Proof.
  unfold parse_item, _draw_timed_event. intros Hp.
  destruct (negb _ || negb _); [done|].
  destruct (get_dateTime (start ev)) as [s|]; [|done].
  destruct (get_dateTime (end_ ev)) as [e|]; [|done].
  destruct (parse s), (parse e); try done. by injection Hp as <-.
Qed.

Lemma draw_boxes top (l : list draw_call) k :
  Forall (fun d => forall bs,
            draw parse all_day_box timed_box top d = Some bs ->
            exists b, bs = [b] /\ box_of_call parse all_day_box timed_box d b) l ->
  Forall2 (fun d bs => draw parse all_day_box timed_box top d = Some bs) l k ->
  Forall2 (box_of_call parse all_day_box timed_box) l (mjoin k).
Proof.
  intros Hone Hdraw. induction Hdraw as [|d bs l k Hd _ IH]; [constructor|].
  apply Forall_cons in Hone as [Hb Hone].
  destruct (Hb bs Hd) as (b & -> & Hbox). simpl. constructor; [done|].
  by apply IH.
Qed.

End RenderBoxes.

Section RenderClick.

Context (parse : string -> option instant) (local_date : instant -> Z)
        (parse_date : string -> option Z)
        (all_day_box : nat -> nat -> bbox)
        (timed_box : nat -> instant -> instant -> nat -> nat -> bbox).

(** Every drawing call draws an event of the list that lies in the week;
    a timed one has a start and an end that parse. *)
Lemma draw_calls_sound v evs d :
  d ∈ draw_calls parse local_date parse_date v evs ->
  call_event d ∈ evs
  /\ is_Some (classify parse local_date parse_date v (call_event d))
  /\ match d with
     | DrawAllDay _ _ _ => True
     | DrawTimed _ ev _ _ => is_Some (parse_item parse ev)
     end.
Proof.
  destruct d as [i ev k|i ev lane n]; simpl.
  - intros [Hi Hk]%draw_calls_all_day.
    apply list_elem_of_lookup_2, list_elem_of_filter in Hk as [Hc Hev]. eauto.
  - intros [Hi Hin]%draw_calls_timed.
    apply compute_lanes_elem in Hin as (Hev & Hp & _).
    apply list_elem_of_filter in Hev as [Hc Hev]. eauto.
Qed.

(** What one drawing call of a render gives. *)
Lemma draw_call_result top v evs d :
  d ∈ draw_calls parse local_date parse_date v evs ->
  match d with
  | DrawAllDay i ev k =>
      draw parse all_day_box timed_box top d
      = if bool_decide (top = Some None) then None
        else Some [(all_day_box i k, ev_id ev)]
  | DrawTimed i ev lane n =>
      exists s e,
        parse_item parse ev = Some (ev, s, e)
        /\ draw parse all_day_box timed_box top d
           = Some [(timed_box i s e lane n, ev_id ev)]
  end.
Proof.
  intros Hd. destruct (draw_calls_sound _ _ _ Hd) as (_ & _ & Hp).
  destruct d as [i ev k|i ev lane n]; simpl.
  - unfold _draw_all_day_event. by destruct top as [[t|]|].
  - destruct Hp as [it Hit]. rewrite (draw_timed_parse_item _ _ _ _ _ _ _ Hit).
    pose proof (parse_item_event _ _ _ Hit) as Hev.
    destruct it as [[ev' s] e]. unfold item_event in Hev. simpl in Hev. subst ev'.
    by exists s, e.
Qed.

Lemma draw_call_box top v evs d bs :
  d ∈ draw_calls parse local_date parse_date v evs ->
  draw parse all_day_box timed_box top d = Some bs ->
  exists b, bs = [b] /\ box_of_call parse all_day_box timed_box d b.
Proof.
  intros Hd Hbs. pose proof (draw_call_result top _ _ _ Hd) as Hres.
  destruct d as [i ev k|i ev lane n].
  - rewrite Hres in Hbs. case_bool_decide; [done|]. injection Hbs as <-.
    eexists. by repeat split.
  - destruct Hres as (s & e & Hit & Hres). rewrite Hres in Hbs.
    injection Hbs as <-. eexists. split; [done|]. split; [done|]. by exists s, e.
Qed.

Lemma render_boxes_spec top v evs boxes :
  _render parse local_date parse_date all_day_box timed_box top v evs = Some boxes ->
  Forall2 (box_of_call parse all_day_box timed_box)
          (draw_calls parse local_date parse_date v evs) boxes.
Proof.
  unfold _render. intros Hr.
  destruct (mapM _ _) as [k|] eqn:Hk; [|done]. injection Hr as <-.
  apply mapM_Some in Hk. eapply draw_boxes; [|exact Hk].
  apply Forall_forall. intros d Hd bs. by apply (draw_call_box top v evs).
Qed.

Lemma render_raises top v evs :
  _render parse local_date parse_date all_day_box timed_box top v evs = None <->
  top = Some None
  /\ exists i ev k, DrawAllDay i ev k ∈ draw_calls parse local_date parse_date v evs.
Proof.
  unfold _render. rewrite fmap_None, mapM_None, Exists_exists. split.
  - intros (d & Hd & Hnone). pose proof (draw_call_result top _ _ _ Hd) as Hres.
    destruct d as [i ev k|i ev lane n].
    + rewrite Hres in Hnone. case_bool_decide; [|done]. eauto.
    + destruct Hres as (s & e & _ & Hres). by rewrite Hres in Hnone.
  - intros (-> & i & ev & k & Hd). by exists (DrawAllDay i ev k).
Qed.

End RenderClick.

(** X7: the drawing loops of [_render] raise exactly when the priority
    task that is set has no title and an all-day event of the list lies in
    the week (then [_draw_all_day_event] fails on its test of the title).
    [_draw_timed_event] never raises and never returns early: the start
    and the end it parses again without a guard are those
    [_compute_lanes] has parsed already.  A render that completes leaves
    exactly one box per drawing call, in the order of the calls, with the
    id of the event drawn. *)
Theorem render_boxes_or_raise
    parse local_date parse_date all_day_box timed_box top v evs :
  let calls := draw_calls parse local_date parse_date v evs in
  let render :=
    _render parse local_date parse_date all_day_box timed_box top v evs in
  (render = None <->
   top = Some None /\ exists i ev k, DrawAllDay i ev k ∈ calls)
  /\ (forall i ev lane n,
        DrawTimed i ev lane n ∈ calls ->
        exists s e,
          parse_item parse ev = Some (ev, s, e)
          /\ _draw_timed_event parse timed_box i ev lane n
             = Some [(timed_box i s e lane n, ev_id ev)])
  /\ (forall boxes,
        render = Some boxes ->
        Forall2 (box_of_call parse all_day_box timed_box) calls boxes
        /\ length boxes = length calls)
  /\ (top <> Some None \/ (forall i, all_day_of_day parse local_date parse_date v i evs = []) ->
      is_Some render).
Proof.
  intros calls render. subst calls render. split; [apply render_raises|].
  split; [|split].
  - intros i ev lane n Hd.
    exact (draw_call_result parse local_date parse_date all_day_box timed_box
             top v evs _ Hd).
  - intros boxes Hr. apply render_boxes_spec in Hr. split; [done|].
    symmetry. by eapply Forall2_length.
  - intros Hok.
    destruct (_render parse local_date parse_date all_day_box timed_box top v evs)
      as [boxes|] eqn:Hr; [by eexists|].
    apply render_raises in Hr as (-> & i & ev & k & Hd).
    destruct Hok as [Hne|Hnone]; [done|].
    apply draw_calls_all_day in Hd as [_ Hk]. by rewrite Hnone in Hk.
Qed.

(** X8: a click that selects an event selects the id of the first box of
    [render_boxes] that holds the point; that id is not empty, it is the
    id of an event of the list that lies in the displayed week, and the
    lookup of [_edit_event] and [delete_selected] finds an event for it. *)
Theorem click_selects_drawn_event
    parse local_date parse_date all_day_box timed_box top v evs boxes x y id :
  _render parse local_date parse_date all_day_box timed_box top v evs = Some boxes ->
  _on_click x y boxes = Select id ->
  id <> EmptyString
  /\ (exists k b ev,
        boxes !! k = Some (b, id)
        /\ inside x y b = true
        /\ (forall j b' id',
              (j < k)%nat -> boxes !! j = Some (b', id') -> inside x y b' = false)
        /\ ev ∈ evs /\ ev_id ev = id
        /\ is_Some (classify parse local_date parse_date v ev))
  /\ is_Some (find_event id evs).
Proof.
  intros Hrender Hclick.
  pose proof (render_boxes_spec parse local_date parse_date all_day_box timed_box
                top v evs boxes Hrender) as Hb.
  unfold _on_click, hit_test in Hclick.
  destruct (list_find _ boxes) as [[k [b id']]|] eqn:Hfind; [|done].
  destruct (truthy (Some id')) eqn:Hid; [|done]. injection Hclick as ->.
  apply list_find_Some in Hfind as (Hk & Hin & Hfirst). simpl in Hin.
  destruct (Forall2_lookup_r _ _ _ _ _ Hb Hk) as (d & Hd & Hid' & _).
  apply list_elem_of_lookup_2, draw_calls_sound in Hd as (Hev & Hc & _).
  simpl in Hid'.
  assert (is_Some (find_event id evs)) as Hsome.
  { unfold find_event. by eapply list_find_elem_of. }
  split; [by intros ->|]. split; [|done].
  exists k, b, (call_event d). repeat split; try done.
  intros j b' id'' Hj Hjb. specialize (Hfirst _ _ Hjb Hj). simpl in Hfirst.
  by destruct (inside x y b').
Qed.

Lemma click_selects_drawn_event_witness :
  is_Some (find_event "A" [ev_allday; ev_A; ev_B; ev_C]).
Proof.
  eapply (click_selects_drawn_event sample_parse sample_local_date sample_parse_date
            sample_all_day_box sample_timed_box (Some (Some "Report"%string))
            sample_week [ev_allday; ev_A; ev_B; ev_C] _ 80 650 "A").
  - vm_compute. reflexivity.
  - vm_compute. reflexivity.
Defined.

(** * Editing the selected event *)




(** * Backup and restore of the updater *)

Lemma get_entry_app name es1 es2 :
  get_entry name (es1 ++ es2)
  = match get_entry name es1 with
    | Some x => Some x
    | None => get_entry name es2
    end.
Proof.
  induction es1 as [|[n x] es1 IH]; [done|]. simpl.
  by destruct (String.eqb n name).
Qed.

Lemma get_entry_None name es : name ∉ es.*1 -> get_entry name es = None.
Proof.
  induction es as [|[n x] es IH]; [done|]. simpl. intros Hn.
  apply not_elem_of_cons in Hn as [Hne Hn].
  destruct (String.eqb n name) eqn:Heq; [|by apply IH].
  by apply String.eqb_eq in Heq.
Qed.

Lemma get_entry_clear name user_dir :
  get_entry name (clear_user_dir user_dir)
  = if bool_decide (name ∈ restore_keep) then get_entry name user_dir else None.
Proof.
  unfold clear_user_dir. case_bool_decide as Hk.
  - induction user_dir as [|[n x] es IH]; [done|].
    rewrite filter_cons. simpl. destruct (String.eqb n name) eqn:Heq.
    + apply String.eqb_eq in Heq as ->. rewrite decide_True by done.
      simpl. by rewrite String.eqb_refl.
    + destruct (decide _); [|done]. simpl. by rewrite Heq.
  - induction user_dir as [|[n x] es IH]; [done|].
    rewrite filter_cons. simpl. destruct (decide _) as [Hn|]; [|done].
    simpl. destruct (String.eqb n name) eqn:Heq; [|done].
    by apply String.eqb_eq in Heq as ->.
Qed.

Lemma restore_items_fresh items user_dir :
  NoDup items.*1 ->
  (forall name, name ∈ items.*1 -> get_entry name user_dir = None) ->
  restore_items items user_dir = (user_dir ++ items, true).
Proof.
  revert user_dir. induction items as [|[name n] items IH]; intros user_dir Hnd Hfresh.
  - by rewrite app_nil_r.
  - simpl in Hnd, Hfresh. apply NoDup_cons in Hnd as [Hname Hnd].
    cbn [restore_items].
    assert (restore_item user_dir (name, n) = Some (user_dir ++ [(name, n)])) as ->.
    { unfold restore_item. rewrite (Hfresh name) by apply list_elem_of_here.
      by destruct n. }
    rewrite IH, <-(assoc_L (++)); [done|done|].
    intros name' Hin. rewrite get_entry_app, (Hfresh name') by (by right). simpl.
    destruct (String.eqb name name') eqn:Heq; [|done].
    by apply String.eqb_eq in Heq as ->.
Qed.

Section BackupFacts.

Context (normcase : string -> string).

Lemma copy_entries_cons name m es :
  copy_entries normcase ((name, m) :: es)
  = if ignored normcase name then copy_entries normcase es
    else (name, copytree normcase m) :: copy_entries normcase es.
Proof. unfold copy_entries. simpl. by destruct (ignored normcase name). Qed.

Lemma copytree_Dir es : copytree normcase (Dir es) = Dir (copy_entries normcase es).
Proof. done. Qed.

Lemma copy_entries_names es :
  (copy_entries normcase es).*1 = filter (fun n => ignored normcase n = false) es.*1.
Proof.
  induction es as [|[n x] es IH]; [done|].
  rewrite copy_entries_cons, (fmap_cons fst (n, x) es), filter_cons. cbn [fst].
  destruct (ignored normcase n).
  - by rewrite decide_False.
  - rewrite decide_True by done. rewrite fmap_cons. cbn [fst]. by rewrite IH.
Qed.

Lemma get_entry_copy name es :
  get_entry name (copy_entries normcase es)
  = if ignored normcase name then None
    else copytree normcase <$> get_entry name es.
Proof.
  induction es as [|[n x] es IH]; [by destruct (ignored normcase name)|].
  rewrite copy_entries_cons. cbn [get_entry].
  destruct (String.eqb n name) eqn:Heq.
  - apply String.eqb_eq in Heq as ->.
    destruct (ignored normcase name) eqn:Hig.
    + exact IH.
    + cbn [get_entry]. by rewrite String.eqb_refl.
  - destruct (ignored normcase n); [done|]. cbn [get_entry]. by rewrite Heq.
Qed.

Lemma lookup_path_copytree p n :
  lookup_path p (copytree normcase n)
  = if path_ignored normcase p then None
    else copytree normcase <$> lookup_path p n.
Proof.
  revert n. induction p as [|name p IH]; intros n; [done|].
  destruct n as [c|es].
  - simpl. by destruct (_ || _).
  - rewrite copytree_Dir. cbn [lookup_path path_ignored existsb].
    rewrite get_entry_copy.
    destruct (ignored normcase name); [done|]. simpl.
    destruct (get_entry name es) as [m|]; simpl; [apply IH|].
    by destruct (existsb _ p).
Qed.

End BackupFacts.

Lemma restore_keep_ignored normcase name :
  normcase "__pycache__" = "__pycache__"%string ->
  normcase "temp_update" = "temp_update"%string ->
  name ∈ restore_keep -> ignored normcase name = true.
Proof.
  intros Hpy Htmp Hin. unfold restore_keep in Hin.
  apply elem_of_cons in Hin as [->|Hin]; [unfold ignored; by rewrite Hpy|].
  apply list_elem_of_singleton in Hin as ->. unfold ignored. by rewrite Htmp.
Qed.

(** X10: restoring the backup made by [backup_current_version] always
    succeeds and returns [user_dir] to the backup, not to what it was:
    every file whose path matches none of the backup's patterns is back
    with its content, but whatever matches one of them ([*.db], [*.pyc],
    [.apollo], [update.zip], at any depth) is deleted and not restored,
    the top-level [__pycache__] and [temp_update] excepted, which are left
    as the failed update left them; nothing the update added elsewhere
    survives. *)
Theorem restore_returns_pruned_backup normcase (U0 U1 : list (string * node)) :
  normcase "__pycache__" = "__pycache__"%string ->
  normcase "temp_update" = "temp_update"%string ->
  NoDup U0.*1 ->
  let backup := backup_current_version normcase U0 in
  let r := restore_backup U1 backup in
  r = (clear_user_dir U1 ++ backup, true)
  /\ (forall name p,
        name ∉ restore_keep ->
        lookup_path (name :: p) (Dir r.1)
        = if path_ignored normcase (name :: p) then None
          else copytree normcase <$> lookup_path (name :: p) (Dir U0))
  /\ (forall p c,
        path_ignored normcase p = false ->
        lookup_path p (Dir U0) = Some (File c) ->
        lookup_path p (Dir r.1) = Some (File c))
  /\ (forall name p,
        name ∉ restore_keep ->
        path_ignored normcase (name :: p) = true ->
        lookup_path (name :: p) (Dir r.1) = None)
  /\ (forall name p,
        name ∈ restore_keep ->
        lookup_path (name :: p) (Dir r.1) = lookup_path (name :: p) (Dir U1)).
Proof.
  intros Hpy Htmp Hnd backup r.
  assert (r = (clear_user_dir U1 ++ backup, true)) as Hr.
  { subst r backup. unfold restore_backup, backup_current_version.
    apply restore_items_fresh.
    - rewrite copy_entries_names. by apply NoDup_filter.
    - intros name Hin. rewrite copy_entries_names in Hin.
      apply list_elem_of_filter in Hin as [Hig _].
      rewrite get_entry_clear. case_bool_decide as Hk; [|done].
      by rewrite (restore_keep_ignored normcase name Hpy Htmp Hk) in Hig. }
  rewrite Hr. cbn [fst]. clear r Hr.
  assert (forall name p,
            name ∉ restore_keep ->
            lookup_path (name :: p) (Dir (clear_user_dir U1 ++ backup))
            = if path_ignored normcase (name :: p) then None
              else copytree normcase <$> lookup_path (name :: p) (Dir U0)) as Hout.
  { intros name p Hk. rewrite <-(lookup_path_copytree normcase (name :: p) (Dir U0)).
    rewrite copytree_Dir. cbn [lookup_path].
    rewrite get_entry_app, get_entry_clear, bool_decide_eq_false_2 by done.
    done. }
  split; [done|]. split; [exact Hout|]. split; [|split].
  - intros [|name p] c Hig Hfile; [done|].
    rewrite Hout, Hig, Hfile; [done|].
    intros Hk. apply (restore_keep_ignored normcase name Hpy Htmp) in Hk.
    cbn [path_ignored existsb] in Hig. by rewrite Hk in Hig.
  - intros name p Hk Hig. by rewrite Hout, Hig.
  - intros name p Hk. cbn [lookup_path].
    rewrite get_entry_app, get_entry_clear, bool_decide_eq_true_2 by done.
    destruct (get_entry name U1) as [x|]; [done|].
    subst backup. unfold backup_current_version.
    by rewrite get_entry_copy, (restore_keep_ignored normcase name Hpy Htmp Hk).
Qed.

Lemma restore_returns_pruned_backup_witness :
  lookup_path ["calander.py"%string]
    (Dir (restore_backup (sample_user_dir ++ [("update.zip"%string, File "zip")])
            (backup_current_version (fun s => s) sample_user_dir)).1)
  = Some (File "app")
  /\ lookup_path ["apollo.db"%string]
       (Dir (restore_backup (sample_user_dir ++ [("update.zip"%string, File "zip")])
               (backup_current_version (fun s => s) sample_user_dir)).1)
     = None.
Proof.
  destruct (restore_returns_pruned_backup (fun s => s) sample_user_dir
              (sample_user_dir ++ [("update.zip"%string, File "zip")])
              eq_refl eq_refl) as (_ & _ & Hback & Hlost & _).
  - apply (bool_decide_unpack _). vm_compute. exact I.
  - split.
    + apply Hback; reflexivity.
    + apply Hlost; [|reflexivity].
      apply (bool_decide_unpack _). vm_compute. exact I.
Defined.

(** * Times typed by the user *)

Lemma split_colon_cons c s :
  split_colon (String c s)
  = if String.eqb (String c EmptyString) ":" then EmptyString :: split_colon s
    else match split_colon s with
         | part :: parts => String c part :: parts
         | [] => [String c EmptyString]
         end.
Proof. reflexivity. Qed.

Lemma colon_free_cons c s :
  colon_free (String c s)
  = negb (String.eqb (String c EmptyString) ":") && colon_free s.
Proof. reflexivity. Qed.

Lemma split_colon_free a : colon_free a = true -> split_colon a = [a].
Proof.
  induction a as [|c a IH]; [done|].
  rewrite colon_free_cons, split_colon_cons.
  destruct (String.eqb (String c EmptyString) ":"); [done|].
  intros Ha. by rewrite IH.
Qed.

Lemma split_colon_app a b :
  colon_free a = true ->
  split_colon (String.append a (String.append ":" b)) = a :: split_colon b.
Proof.
  induction a as [|c a IH]; [done|].
  rewrite colon_free_cons.
  change (String.append (String c a) (String.append ":" b))
    with (String c (String.append a (String.append ":" b))).
  rewrite split_colon_cons.
  destruct (String.eqb (String c EmptyString) ":"); [done|].
  intros Ha. by rewrite IH.
Qed.

Lemma split_colon_hd b : exists parts, split_colon b = hd EmptyString (split_colon b) :: parts.
Proof.
  destruct b as [|c b]; [by exists []|].
  rewrite split_colon_cons.
  destruct (String.eqb (String c EmptyString) ":"); [by eexists|].
  destruct (split_colon b); by eexists.
Qed.

Lemma clamp_range hi n : 0 <= hi -> 0 <= clamp hi n <= hi.
Proof. unfold clamp. lia. Qed.

(** X11: [parse_time_hhmm] returns a valid time of day for every text,
    whatever [strip] and [int] do: an hour in 0..23 and a minute in 0..59.
    With no colon the minute is 0; with one, only the first two fields
    count (seconds are ignored), values out of range are clamped, and when
    a field that is read does not convert (an empty minute after a
    trailing colon included) the result is 09:00. *)
Theorem parse_time_hhmm_valid strip py_int text :
  let r := parse_time_hhmm strip py_int text in
  let s := strip (if truthy text then default EmptyString text else EmptyString) in
  (0 <= r.1 <= 23 /\ 0 <= r.2 <= 59)
  /\ (colon_free s = true ->
      r = match py_int s with
          | Some h => (clamp 23 h, 0)
          | None => (9, 0)
          end)
  /\ (forall a b,
        colon_free a = true ->
        s = String.append a (String.append ":" b) ->
        r = match py_int a, py_int (hd EmptyString (split_colon b)) with
            | Some h, Some m => (clamp 23 h, clamp 59 m)
            | _, _ => (9, 0)
            end).
Proof.
  intros r s. subst r. unfold parse_time_hhmm. fold s. split; [|split].
  - pose proof (clamp_range 23) as H23. pose proof (clamp_range 59) as H59.
    destruct (split_colon s !! 0%nat) as [part0|]; [|simpl; lia].
    destruct (py_int part0) as [h|]; [|simpl; lia].
    case_bool_decide; [|simpl; split; [apply H23|apply H59]; lia].
    destruct (split_colon s !! 1%nat) as [part1|]; [|simpl; lia].
    destruct (py_int part1) as [m|]; [|simpl; lia].
    simpl. split; [apply H23|apply H59]; lia.
  - intros Hs. rewrite (split_colon_free s Hs). simpl.
    by destruct (py_int s).
  - intros a b Ha Hs. rewrite Hs, (split_colon_app a b Ha).
    destruct (split_colon_hd b) as [parts ->].
    case_bool_decide as Hlen; [|simpl in Hlen; lia].
    simpl. destruct (py_int a) as [h|]; [|done].
    by destruct (py_int _).
Qed.
